(** * Proof-of-work difficulty retargeting (pow.cpp)

    A shallow embedding of the difficulty dispatcher, the legacy periodic
    retarget, the LWMA retarget and the proof-of-work check of [pow.cpp],
    together with the 256-bit arithmetic and the chain cursor they use. *)

From Stdlib Require Import ZArith List Bool Lia.
Import ListNotations.
Local Open Scope Z_scope.

(** ** Fallible computations

    [None] stands for a run without a result: a failed [assert], a null
    pointer dereference, a division by zero. *)

Definition bind {A B : Type} (c : option A) (f : A -> option B) : option B :=
  match c with
  | Some a => f a
  | None => None
  end.

Notation "x <- c ;; k" := (bind c (fun x => k))
  (at level 61, c at next level, right associativity).

(** ** Machine integers

    [int] and [int64_t] values are kept as [Z]; every arithmetic result is
    brought back into the type's range by the two's-complement wrap-around,
    which is also what the conversions between widths do. C++ leaves the
    result of a signed overflow undefined; the properties below that need an
    exact signed result state the range they need, and the examples stay
    within range in all signed arithmetic. *)

Module MachineInt.

Definition wrap_signed (w x : Z) : Z := (x + 2 ^ (w - 1)) mod 2 ^ w - 2 ^ (w - 1).

Definition int32 (x : Z) : Z := wrap_signed 32 x.
Definition int64 (x : Z) : Z := wrap_signed 64 x.
Definition uint32 (x : Z) : Z := x mod 2 ^ 32.
Definition uint64 (x : Z) : Z := x mod 2 ^ 64.

Definition INT_MAX : Z := 2 ^ 31 - 1.

Definition in_int32 (x : Z) : Prop := - 2 ^ 31 <= x < 2 ^ 31.
Definition in_int64 (x : Z) : Prop := - 2 ^ 63 <= x < 2 ^ 63.

(** C++ [/] and [%] truncate toward zero; a zero divisor has no result. *)
Definition c_div (a b : Z) : option Z :=
  if b =? 0 then None else Some (Z.quot a b).
Definition c_rem (a b : Z) : option Z :=
  if b =? 0 then None else Some (Z.rem a b).

End MachineInt.
Import MachineInt.

(** ** arith_uint256 *)

Module Arith256.

Definition u256 (x : Z) : Z := x mod 2 ^ 256.

(** Modelled from the spec: the 256-bit unsigned integer type [arith_uint256]
    ([arith_uint256.h] and [arith_uint256.cpp] are not among the sources).
    A value is a [Z] in [[0, 2^256)]; the type is fixed-width with defined
    wrap-around, and dividing by zero throws. *)
Definition UintToArith256 (x : Z) : Z := u256 x.

(** Modelled from the spec: the converting constructor from [uint64_t]. *)
Definition of_uint64 (b : Z) : Z := uint64 b.

(** Modelled from the spec: [operator*=(uint32_t)], the overload chosen for an
    [int] or [int64_t] right operand (an integral conversion). *)
Definition mul_u32 (a b32 : Z) : Z := u256 (a * uint32 b32).

(** Modelled from the spec: [operator*=(const base_uint&)]. *)
Definition mul (a b : Z) : Z := u256 (a * b).

(** Modelled from the spec: [operator+=]. *)
Definition add (a b : Z) : Z := u256 (a + b).

(** Modelled from the spec: [operator/=], which throws on a zero divisor. *)
Definition div (a b : Z) : option Z :=
  if b =? 0 then None else Some (a / b).

(** Modelled from the spec: [bits()], the position of the highest set bit
    plus one, zero for zero. *)
Definition bits (v : Z) : Z := if v =? 0 then 0 else Z.log2 v + 1.

Definition GetLow64 (v : Z) : Z := v mod 2 ^ 64.

(** Modelled from the spec: the compact decoder. One byte of exponent
    (number of base-256 digits), three bytes of mantissa whose top bit is the
    sign flag. Returns the target and the negative and overflow flags. *)
Definition SetCompact_full (nCompact : Z) : Z * bool * bool :=
  let nSize := Z.shiftr nCompact 24 in
  let nWord := Z.land nCompact 8388607 (* 0x007fffff *) in
  let nWord' := if nSize <=? 3 then Z.shiftr nWord (8 * (3 - nSize)) else nWord in
  let value :=
    if nSize <=? 3 then nWord' else u256 (Z.shiftl nWord (8 * (nSize - 3))) in
  let fNegative :=
    negb (nWord' =? 0) && negb (Z.land nCompact 8388608 (* 0x00800000 *) =? 0) in
  let fOverflow :=
    negb (nWord' =? 0) &&
    ((nSize >? 34) || ((nWord' >? 255) && (nSize >? 33))
                   || ((nWord' >? 65535) && (nSize >? 32))) in
  (value, fNegative, fOverflow).

Definition SetCompact (nCompact : Z) : Z := fst (fst (SetCompact_full nCompact)).

(** Modelled from the spec: the compact encoder (of a non-negative value). *)
Definition GetCompact (v : Z) : Z :=
  let nSize := (bits v + 7) / 8 in
  let nCompact :=
    if nSize <=? 3
    then uint32 (uint64 (Z.shiftl (GetLow64 v) (8 * (3 - nSize))))
    else uint32 (GetLow64 (Z.shiftr v (8 * (nSize - 3)))) in
  let '(nCompact, nSize) :=
    if negb (Z.land nCompact 8388608 =? 0)
    then (Z.shiftr nCompact 8, nSize + 1)
    else (nCompact, nSize) in
  Z.lor nCompact (Z.shiftl nSize 24).

End Arith256.
Import Arith256.

(** ** Chain cursor and consensus parameters *)

(** [CBlockIndex]: the fields this file reads, and the predecessor link. *)
#[local] Unset Elimination Schemes.
Inductive CBlockIndex : Type :=
| BlockIndex (nHeight : Z) (nTime : Z) (nBits : Z) (pprev : option CBlockIndex).
#[local] Set Elimination Schemes.

Definition nHeight (b : CBlockIndex) : Z :=
  match b with BlockIndex h _ _ _ => h end.
Definition nTime (b : CBlockIndex) : Z :=
  match b with BlockIndex _ t _ _ => t end.
Definition nBits (b : CBlockIndex) : Z :=
  match b with BlockIndex _ _ c _ => c end.
Definition pprev (b : CBlockIndex) : option CBlockIndex :=
  match b with BlockIndex _ _ _ p => p end.

(** [GetBlockTime] widens the unsigned 32-bit [nTime] to [int64_t]. *)
Definition GetBlockTime (b : CBlockIndex) : Z := nTime b.

(** A candidate header; only its time is read. *)
Record CBlockHeader : Type := BlockHeader { hdr_nTime : Z }.

Definition hdr_GetBlockTime (h : CBlockHeader) : Z := hdr_nTime h.

(** The block and its ancestors, newest first. *)
Fixpoint chain_blocks (b : CBlockIndex) : list CBlockIndex :=
  match b with
  | BlockIndex _ _ _ None => [b]
  | BlockIndex _ _ _ (Some p) => b :: chain_blocks p
  end.

Fixpoint walk_prev (n : nat) (b : CBlockIndex) : option CBlockIndex :=
  match n with
  | O => Some b
  | S n' => p <- pprev b ;; walk_prev n' p
  end.

(** Modelled from the spec: ancestor lookup by height ([chain.cpp] is not
    among the sources). A height above the block's own or below zero gives
    the null result; otherwise the predecessor link is followed once per
    unit of height difference. *)
Definition GetAncestor (b : CBlockIndex) (height : Z) : option CBlockIndex :=
  if (height >? nHeight b) || (height <? 0) then None
  else walk_prev (Z.to_nat (nHeight b - height)) b.

(** [Consensus::Params]: the fields this file reads. The heights are [int],
    the spacing, timespan and window [int64_t], the limits [uint256]. *)
Record Params : Type := mkParams {
  powLimit : Z;
  BCDBeginPowLimit : Z;
  BCDHeight : Z;
  ZawyLWMAHeight : Z;
  nPowTargetSpacing : Z;
  nPowTargetTimespan : Z;
  nZawyLwmaAveragingWindow : Z;
  nZawyLwmaMinDenominator : Z;
  fPowAllowMinDifficultyBlocks : bool;
  fPowNoRetargeting : bool
}.

(** Modelled from the spec: the legacy retarget interval, the timespan
    divided by the spacing ([consensus/params.h] is not among the sources). *)
Definition DifficultyAdjustmentInterval (params : Params) : option Z :=
  q <- c_div (nPowTargetTimespan params) (nPowTargetSpacing params) ;;
  Some (int64 q).

(** ** pow.cpp

    The functions follow the source statement by statement; [LogPrintf] calls
    are left out. *)

(** The test of the minimum-difficulty rule: the candidate's time is more
    than twice the spacing after the last block's. *)
Definition gap_exceeded (pindexLast : CBlockIndex) (pblock : CBlockHeader)
    (params : Params) : bool :=
  hdr_GetBlockTime pblock >?
  int64 (GetBlockTime pindexLast + int64 (nPowTargetSpacing params * 2)).

(** The loop of [BCDGetNextWorkRequired] that looks for the last block not
    mined under the minimum-difficulty rule. *)
Fixpoint last_non_special (params : Params) (nProofOfWorkLimit : Z)
    (pindex : CBlockIndex) : option Z :=
  match pindex with
  | BlockIndex h _ c None => Some c
  | BlockIndex h _ c (Some p) =>
      interval <- DifficultyAdjustmentInterval params ;;
      r <- c_rem h interval ;;
      if negb (r =? 0) && (c =? nProofOfWorkLimit)
      then last_non_special params nProofOfWorkLimit p
      else Some c
  end.

(** [limit] and [powTargetTimespan] as [CalculateNextWorkRequired] chooses
    them. *)
Definition retarget_timespan (pindexLast : CBlockIndex) (params : Params) : Z * Z :=
  if int32 (nHeight pindexLast + 1) >? BCDHeight params
  then (2, int32 (int64 (72 * nPowTargetSpacing params)))
  else (4, int32 (nPowTargetTimespan params)).

(** "Limit adjustment step": the two tests on [nActualTimespan]. *)
Definition clamp_timespan (limit powTargetTimespan nActualTimespan : Z) : Z :=
  let nActualTimespan :=
    if nActualTimespan <? Z.quot powTargetTimespan limit
    then Z.quot powTargetTimespan limit else nActualTimespan in
  if nActualTimespan >? int32 (powTargetTimespan * limit)
  then int32 (powTargetTimespan * limit) else nActualTimespan.

(** The target computed by [CalculateNextWorkRequired] when retargeting is
    enabled, before it is encoded: [bnNew] after the clamp to [bnPowLimit]. *)
Definition retarget_bnNew (pindexLast : CBlockIndex) (nFirstBlockTime : Z)
    (params : Params) : option Z :=
  let '(limit, powTargetTimespan) := retarget_timespan pindexLast params in
  let nActualTimespan := int64 (GetBlockTime pindexLast - nFirstBlockTime) in
  let nActualTimespan := clamp_timespan limit powTargetTimespan nActualTimespan in
  let bnPowLimit := UintToArith256 (powLimit params) in
  let bnNew := SetCompact (nBits pindexLast) in
  let bnNew := mul_u32 bnNew nActualTimespan in
  bnNew <- div bnNew (of_uint64 powTargetTimespan) ;;
  Some (if bnNew >? bnPowLimit then bnPowLimit else bnNew).

Definition CalculateNextWorkRequired (pindexLast : CBlockIndex)
    (nFirstBlockTime : Z) (params : Params) : option Z :=
  if fPowNoRetargeting params then Some (nBits pindexLast)
  else
    bnNew <- retarget_bnNew pindexLast nFirstBlockTime params ;;
    Some (GetCompact bnNew).

(** [height] and [interval] as [BCDGetNextWorkRequired] chooses them. *)
Definition legacy_height_interval (pindexLast : CBlockIndex) (params : Params)
    : option (Z * Z) :=
  if int32 (nHeight pindexLast + 1) >? BCDHeight params
  then Some (int32 (int32 (nHeight pindexLast + 1) - BCDHeight params), 72)
  else
    interval <- DifficultyAdjustmentInterval params ;;
    Some (int32 (nHeight pindexLast + 1), int32 interval).

Definition BCDGetNextWorkRequired (pindexLast : CBlockIndex)
    (pblock : CBlockHeader) (params : Params) : option Z :=
  hi <- legacy_height_interval pindexLast params ;;
  let '(height, interval) := hi in
  r <- c_rem height interval ;;
  if negb (r =? 0) then
    if fPowAllowMinDifficultyBlocks params then
      let nProofOfWorkLimit := GetCompact (UintToArith256 (powLimit params)) in
      if gap_exceeded pindexLast pblock params
      then Some nProofOfWorkLimit
      else last_non_special params nProofOfWorkLimit pindexLast
    else Some (nBits pindexLast)
  else
    let nHeightFirst := int32 (nHeight pindexLast - int32 (interval - 1)) in
    if nHeightFirst <? 0 then None
    else
      pindexFirst <- GetAncestor pindexLast nHeightFirst ;;
      CalculateNextWorkRequired pindexLast (GetBlockTime pindexFirst) params.

(** *** LWMA *)

(** The variables the averaging loop updates. *)
Record lwma_vars : Type := mkVars {
  previousTimestamp : Z;
  sumWeightedSolvetimes : Z;
  weight : Z;
  avgTarget : Z
}.

(** One pass through the body of the averaging loop, for the block at
    height [i]. [kN] is the product [k * N]. *)
Definition lwma_body (pindexLast : CBlockIndex) (T kN : Z) (i : Z)
    (v : lwma_vars) : option lwma_vars :=
  block <- GetAncestor pindexLast i ;;
  let thisTimestamp :=
    if GetBlockTime block >? previousTimestamp v
    then GetBlockTime block else int64 (previousTimestamp v + 1) in
  let solvetime :=
    Z.min (int64 (6 * T)) (int64 (thisTimestamp - previousTimestamp v)) in
  let weight' := int32 (weight v + 1) in
  let sum' := int32 (int64 (sumWeightedSolvetimes v + int64 (solvetime * weight'))) in
  let target := SetCompact (nBits block) in
  q <- div target (of_uint64 kN) ;;
  Some (mkVars thisTimestamp sum' weight' (add (avgTarget v) q)).

(** [n] passes of the loop, starting at height [i]. *)
Fixpoint lwma_loop (pindexLast : CBlockIndex) (T kN : Z) (n : nat) (i : Z)
    (v : lwma_vars) : option lwma_vars :=
  match n with
  | O => Some v
  | S n' =>
      v' <- lwma_body pindexLast T kN i v ;;
      lwma_loop pindexLast T kN n' (i + 1) v'
  end.

(** [for (int i = first; i <= height; i++)]. When [height] is [INT_MAX] the
    increment after the last pass wraps, the next lookup is below zero and
    its null result is dereferenced. *)
Definition lwma_for (pindexLast : CBlockIndex) (T kN : Z) (first height : Z)
    (v : lwma_vars) : option lwma_vars :=
  if (first <=? height) && (height =? INT_MAX) then None
  else lwma_loop pindexLast T kN (Z.to_nat (height - first + 1)) first v.

(** [k = N * (N + 1) * T / 2]. *)
Definition lwma_k (N T : Z) : Z :=
  int64 (Z.quot (int64 (int64 (N * int64 (N + 1)) * T)) 2).

Definition LwmaCalculateNextWorkRequired (pindexLast : CBlockIndex)
    (params : Params) : option Z :=
  if fPowNoRetargeting params then Some (nBits pindexLast)
  else
    let T := nPowTargetSpacing params in
    let N := nZawyLwmaAveragingWindow params in
    let k := lwma_k N T in
    let height := nHeight pindexLast in
    let powLimit := UintToArith256 (BCDBeginPowLimit params) in
    if height <? N then Some (GetCompact powLimit)
    else
      blockPreviousTimestamp <- GetAncestor pindexLast (int32 (int64 (height - N))) ;;
      v <- lwma_for pindexLast T (int64 (k * N))
             (int32 (int64 (int64 (height - N) + 1))) height
             (mkVars (GetBlockTime blockPreviousTimestamp) 0 0 0) ;;
      let nextTarget := mul_u32 (avgTarget v) (sumWeightedSolvetimes v) in
      let nextTarget := if nextTarget >? powLimit then powLimit else nextTarget in
      Some (GetCompact nextTarget).

Definition LwmaGetNextWorkRequired (pindexLast : CBlockIndex)
    (pblock : CBlockHeader) (params : Params) : option Z :=
  if fPowAllowMinDifficultyBlocks params && gap_exceeded pindexLast pblock params
  then Some (GetCompact (UintToArith256 (BCDBeginPowLimit params)))
  else LwmaCalculateNextWorkRequired pindexLast params.

(** *** Dispatcher and verifier *)

Definition GetNextWorkRequired (pindexLast : CBlockIndex)
    (pblock : CBlockHeader) (params : Params) : option Z :=
  if int32 (nHeight pindexLast + 1) =? BCDHeight params
  then Some (GetCompact (UintToArith256 (powLimit params)))
  else if int32 (nHeight pindexLast + 1) =? int32 (BCDHeight params + 1)
  then Some (GetCompact (UintToArith256 (BCDBeginPowLimit params)))
  else if int32 (nHeight pindexLast + 1) <? ZawyLWMAHeight params
  then BCDGetNextWorkRequired pindexLast pblock params
  else LwmaGetNextWorkRequired pindexLast pblock params.

Definition CheckProofOfWork (hash : Z) (nBits : Z) (params : Params) : bool :=
  let '(bnTarget, fNegative, fOverflow) := SetCompact_full nBits in
  if fNegative || (bnTarget =? 0) || fOverflow
     || (bnTarget >? UintToArith256 (powLimit params))
  then false
  else if UintToArith256 hash >? bnTarget then false
  else true.

(** *** The other revision of the LWMA computation (the unnamed source) *)

Module Part000.

(** [k = N * (N + 1) / 2 * T]. *)
Definition lwma_k (N T : Z) : Z :=
  int64 (int64 (Z.quot (int64 (N * int64 (N + 1))) 2) * T).

(** The loop is the same, with [t], [j] and [sumTarget] for
    [sumWeightedSolvetimes], [weight] and [avgTarget]; the product is
    [t * sumTarget], whose left operand is converted to a 256-bit value
    through [uint64_t]. *)
Definition LwmaCalculateNextWorkRequired (pindexLast : CBlockIndex)
    (params : Params) : option Z :=
  if fPowNoRetargeting params then Some (nBits pindexLast)
  else
    let height := nHeight pindexLast in
    let T := nPowTargetSpacing params in
    let N := nZawyLwmaAveragingWindow params in
    let k := lwma_k N T in
    let powLimit := UintToArith256 (BCDBeginPowLimit params) in
    if height <? N then Some (GetCompact powLimit)
    else
      blockPreviousTimestamp <- GetAncestor pindexLast (int32 (int64 (height - N))) ;;
      v <- lwma_for pindexLast T (int64 (k * N))
             (int32 (int64 (int64 (height - N) + 1))) height
             (mkVars (GetBlockTime blockPreviousTimestamp) 0 0 0) ;;
      let t := sumWeightedSolvetimes v in
      let sumTarget := avgTarget v in
      let nextTarget := mul (of_uint64 t) sumTarget in
      let nextTarget := if nextTarget >? powLimit then powLimit else nextTarget in
      Some (GetCompact nextTarget).

End Part000.

(** ** Notions used to state the properties *)

(** The flags of the decoder. *)
Definition compact_negative (nCompact : Z) : bool :=
  snd (fst (SetCompact_full nCompact)).
Definition compact_overflow (nCompact : Z) : bool :=
  snd (SetCompact_full nCompact).

(** The walk over minimum-difficulty blocks moves on from a block when the
    block has a predecessor, its height is not a multiple of the legacy
    interval [di], and its bits are the compact limit. *)
Definition walk_continues (di limitBits : Z) (b : CBlockIndex) : Prop :=
  pprev b <> None /\ Z.rem (nHeight b) di <> 0 /\ nBits b = limitBits.



(** The ceiling that applies to the next block: [powLimit] at the fork
    height and under the legacy retarget, [BCDBeginPowLimit] one block after
    the fork and under LWMA. *)
Definition applicable_ceiling (pindexLast : CBlockIndex) (params : Params) : Z :=
  let h := int32 (nHeight pindexLast + 1) in
  if h =? BCDHeight params then UintToArith256 (powLimit params)
  else if h =? int32 (BCDHeight params + 1)
  then UintToArith256 (BCDBeginPowLimit params)
  else if h <? ZawyLWMAHeight params then UintToArith256 (powLimit params)
  else UintToArith256 (BCDBeginPowLimit params).

(** The triangular number [j (j + 1) / 2]. *)
Definition tri (j : Z) : Z := j * (j + 1) / 2.

(** The loop variables as both revisions of the LWMA computation leave them
    after the averaging loop, [k] being the revision's normalizing constant:
    the lookup of the block before the window, then the loop. *)
Definition lwma_window (pindexLast : CBlockIndex) (params : Params) (k : Z)
    : option lwma_vars :=
  let T := nPowTargetSpacing params in
  let N := nZawyLwmaAveragingWindow params in
  let height := nHeight pindexLast in
  blockPreviousTimestamp <- GetAncestor pindexLast (int32 (int64 (height - N))) ;;
  lwma_for pindexLast T (int64 (k * N))
    (int32 (int64 (int64 (height - N) + 1))) height
    (mkVars (GetBlockTime blockPreviousTimestamp) 0 0 0).


(** What the loop keeps true of its variables after [weight] passes, when
    block times are 32-bit and the largest sum fits: the sum is at most
    [6 * T] times the sum of the weights so far. *)
Definition bounded_vars (T : Z) (v : lwma_vars) : Prop :=
  0 <= sumWeightedSolvetimes v <= 6 * T * tri (weight v) /\
  0 <= previousTimestamp v <= 2 ^ 32 + weight v.

(** ** Concrete chains and parameters used by the examples *)

Definition hex_1c00ffff : Z := 469827583.
Definition hex_1d00ffff : Z := 486604799.
Definition hex_207fffff : Z := 545259519.

Definition block_at (h t c : Z) (prev : option CBlockIndex) : CBlockIndex :=
  BlockIndex h t c prev.

(** [n + 1] blocks ending at height [h] and time [t], [dt] seconds apart,
    all with bits [c]. *)
Fixpoint regular_chain (n : nat) (h t dt c : Z) : CBlockIndex :=
  match n with
  | O => BlockIndex h t c None
  | S n' => BlockIndex h t c (Some (regular_chain n' (h - 1) (t - dt) dt c))
  end.

(** The parameters of the dispatcher scenario: [powLimit = 0xffff * 2^208],
    [BCDBeginPowLimit = 0xffff * 2^216], fork at height 100, LWMA from height
    150, ten-minute spacing, a legacy timespan of two weeks, a window of two
    blocks. *)
Definition scenario_params : Params :=
  mkParams (65535 * 2 ^ 208) (65535 * 2 ^ 216) 100 150 600 1209600 2 3 false false.

(** Blocks 197 to 199 of the dispatcher scenario, ten minutes apart. *)
Definition lwma_era_chain : CBlockIndex :=
  block_at 199 1200 hex_1c00ffff
    (Some (block_at 198 600 hex_1c00ffff
       (Some (block_at 197 0 hex_1c00ffff None)))).

(** Blocks 0 to 2, ten minutes apart, all with bits [0x1c00ffff]. *)
Definition steady_chain : CBlockIndex :=
  block_at 2 1200 hex_1c00ffff
    (Some (block_at 1 600 hex_1c00ffff
       (Some (block_at 0 0 hex_1c00ffff None)))).



(** A test network whose legacy retarget still governs after the fork at
    height 100. *)
Definition post_fork_testnet_params : Params :=
  mkParams (65535 * 2 ^ 208) (65535 * 2 ^ 216) 100 1000 600 1209600 2 3 true false.

(** Blocks 171 to 173; the last two carry the compact limit. Block 172 is
    72 blocks after the fork. *)
Definition post_fork_chain : CBlockIndex :=
  block_at 173 103800 hex_1d00ffff
    (Some (block_at 172 103200 hex_1d00ffff
       (Some (block_at 171 102600 hex_1c00ffff None)))).

(** Parameters with a legacy interval of two blocks, the rule switched on. *)
Definition short_interval_params : Params :=
  mkParams (65535 * 2 ^ 208) (65535 * 2 ^ 216) 100 150 600 1200 2 3 true false.

(** Blocks 0 and 1, ten minutes apart. *)
Definition two_block_chain : CBlockIndex :=
  block_at 1 600 hex_1c00ffff (Some (block_at 0 0 hex_1c00ffff None)).

(** Main-network style parameters: fork at height 495866, a legacy interval
    of 2016 blocks, an LWMA window of 60 blocks. *)
Definition mainnet_params : Params :=
  mkParams (65535 * 2 ^ 208) (65535 * 2 ^ 216) 495866 600000 600 1209600 60 3
    false false.



(** Parameters with a legacy timespan of six seconds, which the limit
    factor four does not divide. *)
Definition odd_timespan_params : Params :=
  mkParams (65535 * 2 ^ 208) (65535 * 2 ^ 216) 495866 600000 1 6 60 3 false false.

(** Parameters with a spacing of [2^29] seconds and a window of one block. *)
Definition long_spacing_params : Params :=
  mkParams (65535 * 2 ^ 208) (65535 * 2 ^ 216) 0 2 536870912 1209600 1 3
    false false.

(** Blocks 0 and 1; the second was found [2^31 + 5] seconds after the first
    and carries bits [0x05008000], the target [2^31]. *)
Definition slow_chain : CBlockIndex :=
  block_at 1 2147483653 83918848 (Some (block_at 0 0 83918848 None)).

(** Ten-minute spacing with a window of 1093 blocks. *)
Definition wide_window_params : Params :=
  mkParams (65535 * 2 ^ 208) (65535 * 2 ^ 216) 0 2 600 1209600 1093 3
    false false.

(** Blocks 0 to 1093, one hour apart. *)
Definition hourly_chain : CBlockIndex :=
  regular_chain 1093 1093 3934800 3600 hex_1c00ffff.



(** ** Notions used by the further properties *)

(** A chain as the block index links it: heights go down by one along
    [pprev], to a first block at height 0. *)
Fixpoint linked (b : CBlockIndex) : Prop :=
  match b with
  | BlockIndex h _ _ None => h = 0
  | BlockIndex h _ _ (Some p) => 0 < h /\ nHeight p = h - 1 /\ linked p
  end.

(** Parameters within the ranges the arithmetic of [pow.cpp] is written for:
    a positive spacing, a legacy timespan of at least one spacing, both
    timespans within [int], the fork height within [int], a window whose
    divisor [k * N] stays within [int64_t]. *)
Definition sane_params (params : Params) : Prop :=
  0 < nPowTargetSpacing params /\
  nPowTargetSpacing params <= nPowTargetTimespan params < 2 ^ 31 /\
  72 * nPowTargetSpacing params < 2 ^ 31 /\
  0 <= BCDHeight params < 2 ^ 31 /\
  0 <= nZawyLwmaAveragingWindow params /\
  nZawyLwmaAveragingWindow params * nZawyLwmaAveragingWindow params
    * (nZawyLwmaAveragingWindow params + 1) * nPowTargetSpacing params < 2 ^ 63.


(** ** Concrete values used by the further properties *)

(** Blocks 0 to 199, ten minutes apart. *)
Definition scenario_chain : CBlockIndex :=
  regular_chain 199 199 119400 600 hex_1c00ffff.

(** Two lookups that agree on what the averaging loop reads of a block: its
    time and its bits. *)
Definition same_block_data (a b : option CBlockIndex) : Prop :=
  match a, b with
  | Some x, Some y => nTime x = nTime y /\ nBits x = nBits y
  | None, None => True
  | _, _ => False
  end.

(** Parameters with a spacing of zero. *)
Definition zero_spacing_params : Params :=
  mkParams (65535 * 2 ^ 208) (65535 * 2 ^ 216) 100 150 0 1209600 2 3 false false.

(** Parameters with a window of zero blocks, and of minus one. *)
Definition empty_window_params : Params :=
  mkParams (65535 * 2 ^ 208) (65535 * 2 ^ 216) 100 150 600 1209600 0 3 false false.
Definition negative_window_params : Params :=
  mkParams (65535 * 2 ^ 208) (65535 * 2 ^ 216) 100 150 600 1209600 (-1) 3
    false false.

(** Blocks 0 to 3, where blocks 1 to 3 are ten minutes apart with bits
    [0x1c00ffff] and the first block has time [t0] and bits [c0]. *)
Definition four_block_chain (t0 c0 : Z) : CBlockIndex :=
  block_at 3 1800 hex_1c00ffff
    (Some (block_at 2 1200 hex_1c00ffff
       (Some (block_at 1 600 hex_1c00ffff
          (Some (block_at 0 t0 c0 None)))))).

(** Regression-test style parameters: retargeting switched off. *)
Definition fixed_difficulty_params : Params :=
  mkParams (65535 * 2 ^ 208) (65535 * 2 ^ 216) 100 150 600 1209600 2 3 false true.

(** Parameters whose two limits coincide. *)
Definition single_limit_params : Params :=
  mkParams (65535 * 2 ^ 208) (65535 * 2 ^ 208) 100 150 600 1209600 2 3 false false.

(** * Properties *)

(** ** Options *)

Lemma Some_inj (A : Type) (a b : A) : Some a = Some b -> a = b.
Proof. intros H. now injection H. Qed.

(** ** Machine integers *)

Lemma int32_small x : in_int32 x -> int32 x = x.
Proof.
  unfold in_int32, int32, wrap_signed. intros H.
  change (2 ^ (32 - 1)) with (2 ^ 31). rewrite Z.mod_small; lia.
Qed.

Lemma int64_small x : in_int64 x -> int64 x = x.
Proof.
  unfold in_int64, int64, wrap_signed. intros H.
  change (2 ^ (64 - 1)) with (2 ^ 63). rewrite Z.mod_small; lia.
Qed.

Lemma int32_range x : in_int32 (int32 x).
Proof.
  unfold in_int32, int32, wrap_signed.
  change (2 ^ (32 - 1)) with (2 ^ 31).
  pose proof (Z.mod_pos_bound (x + 2 ^ 31) (2 ^ 32) ltac:(lia)). lia.
Qed.

Lemma int64_range x : in_int64 (int64 x).
Proof.
  unfold in_int64, int64, wrap_signed.
  change (2 ^ (64 - 1)) with (2 ^ 63).
  pose proof (Z.mod_pos_bound (x + 2 ^ 63) (2 ^ 64) ltac:(lia)). lia.
Qed.

(** Range side conditions of the two lemmas above. *)
Ltac in_range := cbv [in_int32 in_int64]; lia.

Lemma int32_succ_neq x : in_int32 x -> int32 (x + 1) <> x.
Proof.
  intros H E. unfold in_int32 in H.
  destruct (Z.eq_dec x (2 ^ 31 - 1)) as [-> | N].
  - vm_compute in E. discriminate.
  - rewrite int32_small in E; unfold in_int32; lia.
Qed.

Lemma u256_small x : 0 <= x < 2 ^ 256 -> u256 x = x.
Proof. intros H. unfold u256. apply Z.mod_small; lia. Qed.

Lemma u256_range x : 0 <= u256 x < 2 ^ 256.
Proof. unfold u256. apply Z.mod_pos_bound. lia. Qed.

Lemma uint32_small x : 0 <= x < 2 ^ 32 -> uint32 x = x.
Proof. intros H. unfold uint32. apply Z.mod_small; lia. Qed.

Lemma uint64_small x : 0 <= x < 2 ^ 64 -> uint64 x = x.
Proof. intros H. unfold uint64. apply Z.mod_small; lia. Qed.

(** ** C1: the dispatcher *)

Lemma dispatch_legacy pindexLast pblock params :
  let h := int32 (nHeight pindexLast + 1) in
  h <> BCDHeight params -> h <> int32 (BCDHeight params + 1) ->
  h < ZawyLWMAHeight params ->
  GetNextWorkRequired pindexLast pblock params
  = BCDGetNextWorkRequired pindexLast pblock params.
Proof.
  intros h N1 N2 L. unfold GetNextWorkRequired. fold h.
  apply Z.eqb_neq in N1, N2. apply Z.ltb_lt in L. now rewrite N1, N2, L.
Qed.

Lemma dispatch_lwma pindexLast pblock params :
  let h := int32 (nHeight pindexLast + 1) in
  h <> BCDHeight params -> h <> int32 (BCDHeight params + 1) ->
  ZawyLWMAHeight params <= h ->
  GetNextWorkRequired pindexLast pblock params
  = LwmaGetNextWorkRequired pindexLast pblock params.
Proof.
  intros h N1 N2 L. unfold GetNextWorkRequired. fold h.
  apply Z.eqb_neq in N1, N2. apply Z.ltb_ge in L. now rewrite N1, N2, L.
Qed.

(** C1. With [h] the height of the next block, [GetNextWorkRequired] returns
    the compact [powLimit] when [h] is the fork height, whatever the LWMA
    activation height and the chain; the compact [BCDBeginPowLimit] when [h]
    is the fork height plus one; the legacy retarget's result when [h] is
    neither and below the LWMA activation height; the LWMA retarget's result
    in the remaining case. The two fixed heights are decided first. *)
Theorem GetNextWorkRequired_priority pindexLast pblock params :
  let h := int32 (nHeight pindexLast + 1) in
  (h = BCDHeight params ->
   GetNextWorkRequired pindexLast pblock params
   = Some (GetCompact (UintToArith256 (powLimit params)))) /\
  (h = int32 (BCDHeight params + 1) ->
   GetNextWorkRequired pindexLast pblock params
   = Some (GetCompact (UintToArith256 (BCDBeginPowLimit params)))) /\
  (h <> BCDHeight params -> h <> int32 (BCDHeight params + 1) ->
   h < ZawyLWMAHeight params ->
   GetNextWorkRequired pindexLast pblock params
   = BCDGetNextWorkRequired pindexLast pblock params) /\
  (h <> BCDHeight params -> h <> int32 (BCDHeight params + 1) ->
   ZawyLWMAHeight params <= h ->
   GetNextWorkRequired pindexLast pblock params
   = LwmaGetNextWorkRequired pindexLast pblock params).
Proof.
  intros h. unfold GetNextWorkRequired. fold h.
  repeat split.
  - intros E. apply Z.eqb_eq in E. now rewrite E.
  - intros E.
    destruct (h =? BCDHeight params) eqn:E1.
    + apply Z.eqb_eq in E1. exfalso.
      apply (int32_succ_neq (BCDHeight params)).
      * rewrite <- E1. apply int32_range.
      * congruence.
    + apply Z.eqb_eq in E. now rewrite E.
  - apply dispatch_legacy.
  - apply dispatch_lwma.
Qed.

(** The dispatcher scenario of the specification: the blocks at heights
    100, 101, 99 and 200, with the fork at 100 and LWMA from 150. *)
Lemma GetNextWorkRequired_priority_witness :
  GetNextWorkRequired (block_at 99 0 hex_1c00ffff None) (BlockHeader 600)
    scenario_params = Some hex_1d00ffff /\
  GetNextWorkRequired (block_at 100 0 hex_1c00ffff None) (BlockHeader 600)
    scenario_params = Some 503382015 /\
  GetNextWorkRequired (block_at 98 0 hex_1c00ffff None) (BlockHeader 600)
    scenario_params
  = BCDGetNextWorkRequired (block_at 98 0 hex_1c00ffff None) (BlockHeader 600)
      scenario_params /\
  GetNextWorkRequired lwma_era_chain (BlockHeader 1800) scenario_params
  = LwmaGetNextWorkRequired lwma_era_chain (BlockHeader 1800) scenario_params.
Proof.
  split; [| split; [| split]].
  - exact (proj1 (GetNextWorkRequired_priority (block_at 99 0 hex_1c00ffff None)
                    (BlockHeader 600) scenario_params) eq_refl).
  - exact (proj1 (proj2 (GetNextWorkRequired_priority
                           (block_at 100 0 hex_1c00ffff None)
                           (BlockHeader 600) scenario_params)) eq_refl).
  - apply (GetNextWorkRequired_priority (block_at 98 0 hex_1c00ffff None)
             (BlockHeader 600) scenario_params); vm_compute; congruence.
  - apply (GetNextWorkRequired_priority lwma_era_chain
             (BlockHeader 1800) scenario_params); vm_compute; congruence.
Defined.

(** The values the two adaptive algorithms give in that scenario. *)
Example dispatcher_scenario_values :
  GetNextWorkRequired (block_at 98 0 hex_1c00ffff None) (BlockHeader 600)
    scenario_params = Some hex_1c00ffff /\
  GetNextWorkRequired lwma_era_chain (BlockHeader 1800) scenario_params
  = Some 469827582.
Proof. split; reflexivity. Qed.

(** ** C2: the proof-of-work check *)

Lemma land_mantissa_range c : 0 <= Z.land c 8388607 < 2 ^ 23.
Proof.
  change 8388607 with (Z.ones 23). rewrite Z.land_ones by lia.
  apply Z.mod_pos_bound. lia.
Qed.

Lemma SetCompact_nonneg c : 0 <= SetCompact c.
Proof.
  unfold SetCompact, SetCompact_full. cbn [fst].
  destruct (Z.shiftr c 24 <=? 3).
  - apply Z.shiftr_nonneg. apply land_mantissa_range.
  - apply u256_range.
Qed.

(** A decoded target is never the largest 256-bit value. *)
Lemma SetCompact_succ_range c : 0 <= SetCompact c + 1 < 2 ^ 256.
Proof.
  pose proof (SetCompact_nonneg c) as Hn. split; [lia |].
  unfold SetCompact, SetCompact_full in *. cbn [fst] in *.
  pose proof (land_mantissa_range c) as Hm.
  destruct (Z.shiftr c 24 <=? 3) eqn:E.
  - assert (Z.shiftr (Z.land c 8388607) (8 * (3 - Z.shiftr c 24))
            <= Z.land c 8388607).
    { apply Z.leb_le in E. rewrite Z.shiftr_div_pow2 by lia.
      apply Z.div_le_upper_bound.
      - apply Z.pow_pos_nonneg; lia.
      - assert (0 < 2 ^ (8 * (3 - Z.shiftr c 24)))
          by (apply Z.pow_pos_nonneg; lia).
        nia. }
    assert (2 ^ 23 < 2 ^ 256) by (apply Z.pow_lt_mono_r; lia). lia.
  - apply Z.leb_gt in E.
    set (s := 8 * (Z.shiftr c 24 - 3)) in *.
    assert (Hs : 8 <= s) by (unfold s; lia).
    set (v := u256 (Z.shiftl (Z.land c 8388607) s)) in *.
    assert (Hv : v mod 256 = 0).
    { unfold v, u256.
      rewrite Z.mod_mod_divide by (exists (2 ^ 248); reflexivity).
      rewrite Z.shiftl_mul_pow2 by lia.
      replace s with ((s - 8) + 8) by lia.
      rewrite Z.pow_add_r by lia. change (2 ^ 8) with 256.
      rewrite Z.mul_assoc. apply Z.mod_mul. lia. }
    pose proof (u256_range (Z.shiftl (Z.land c 8388607) s)) as Hr. fold v in Hr.
    pose proof (Z.div_mod v 256 ltac:(lia)) as Hd.
    change (2 ^ 256) with (256 * 2 ^ 248) in *. lia.
Qed.

(** C2. [CheckProofOfWork] is a function of its three arguments. It answers
    [false] exactly when the decoder flags the compact value as negative or
    as overflowing, or the decoded target is zero, or it exceeds [powLimit],
    or the hash, as a 256-bit number, is greater than the target. So a hash
    equal to an admissible target passes, and a hash equal to the target plus
    one fails. *)
Theorem CheckProofOfWork_spec hash nBits params :
  (CheckProofOfWork hash nBits params = false <->
     compact_negative nBits = true \/
     compact_overflow nBits = true \/
     SetCompact nBits = 0 \/
     SetCompact nBits > UintToArith256 (powLimit params) \/
     UintToArith256 hash > SetCompact nBits) /\
  (compact_negative nBits = false -> compact_overflow nBits = false ->
   SetCompact nBits <> 0 ->
   SetCompact nBits <= UintToArith256 (powLimit params) ->
   hash = SetCompact nBits ->
   CheckProofOfWork hash nBits params = true) /\
  (hash = SetCompact nBits + 1 ->
   CheckProofOfWork hash nBits params = false).
Proof.
  assert (Hiff :
    CheckProofOfWork hash nBits params = false <->
     compact_negative nBits = true \/
     compact_overflow nBits = true \/
     SetCompact nBits = 0 \/
     SetCompact nBits > UintToArith256 (powLimit params) \/
     UintToArith256 hash > SetCompact nBits).
  { unfold CheckProofOfWork, compact_negative, compact_overflow, SetCompact.
    destruct (SetCompact_full nBits) as [[bnTarget fNegative] fOverflow].
    cbn [fst snd].
    pose proof (Zgt_cases bnTarget (UintToArith256 (powLimit params))) as C1.
    pose proof (Zgt_cases (UintToArith256 hash) bnTarget) as C2.
    pose proof (Z.eqb_eq bnTarget 0) as C0.
    destruct fNegative, fOverflow, (bnTarget =? 0),
      (bnTarget >? UintToArith256 (powLimit params)),
      (UintToArith256 hash >? bnTarget); cbn;
      (split; intros H; try reflexivity; try discriminate H);
      intuition (try discriminate; try lia). }
  split; [exact Hiff |]. split.
  - intros Hn Ho Hz Hl ->.
    apply Bool.not_false_iff_true. intros E.
    apply Hiff in E.
    pose proof (SetCompact_succ_range nBits) as Hr.
    pose proof (SetCompact_nonneg nBits) as Hp.
    assert (Hu : UintToArith256 (SetCompact nBits) = SetCompact nBits)
      by (apply u256_small; lia).
    rewrite Hu in E.
    destruct E as [H | [H | [H | [H | H]]]]; try congruence; lia.
  - intros ->. apply Hiff.
    right; right; right; right.
    unfold UintToArith256. rewrite u256_small by apply SetCompact_succ_range.
    lia.
Qed.

(** The genesis target [0x1d00ffff] under a limit of the same value. *)
Lemma CheckProofOfWork_spec_witness :
  CheckProofOfWork (SetCompact hex_1d00ffff) hex_1d00ffff scenario_params = true /\
  CheckProofOfWork (SetCompact hex_1d00ffff + 1) hex_1d00ffff scenario_params
  = false.
Proof.
  pose proof (CheckProofOfWork_spec (SetCompact hex_1d00ffff) hex_1d00ffff
                scenario_params) as [_ [Heq _]].
  pose proof (CheckProofOfWork_spec (SetCompact hex_1d00ffff + 1) hex_1d00ffff
                scenario_params) as [_ [_ Hsucc]].
  split.
  - apply Heq; vm_compute; congruence.
  - apply Hsucc. reflexivity.
Defined.

(** ** C10: the candidate header's time *)

(** C10. With the minimum-difficulty rule switched off, the result of
    [GetNextWorkRequired] does not depend on the candidate header: two calls
    that differ only in the header return the same value. *)
Theorem GetNextWorkRequired_header_irrelevant pindexLast pblock1 pblock2 params :
  fPowAllowMinDifficultyBlocks params = false ->
  GetNextWorkRequired pindexLast pblock1 params
  = GetNextWorkRequired pindexLast pblock2 params.
Proof.
  intros Hoff.
  unfold GetNextWorkRequired, BCDGetNextWorkRequired, LwmaGetNextWorkRequired.
  rewrite Hoff. reflexivity.
Qed.

Lemma GetNextWorkRequired_header_irrelevant_witness :
  GetNextWorkRequired (block_at 98 0 hex_1d00ffff None) (BlockHeader 600)
    scenario_params
  = GetNextWorkRequired (block_at 98 0 hex_1d00ffff None) (BlockHeader 999999)
      scenario_params.
Proof.
  apply (GetNextWorkRequired_header_irrelevant
           (block_at 98 0 hex_1d00ffff None) (BlockHeader 600)
           (BlockHeader 999999) scenario_params).
  reflexivity.
Defined.

(** ** C6: the LWMA bootstrap *)

(** C6. With retargeting enabled and the minimum-difficulty rule not
    triggered, a last block whose height is below the window [N] (as it is
    whenever the next block's height is) makes the LWMA retarget return the
    compact [BCDBeginPowLimit]. The result is the same for every predecessor
    link, also for none at all: no ancestor is looked up. *)
Theorem Lwma_bootstrap h t c prev pblock params :
  fPowNoRetargeting params = false ->
  fPowAllowMinDifficultyBlocks params
    && gap_exceeded (BlockIndex h t c prev) pblock params = false ->
  h < nZawyLwmaAveragingWindow params ->
  LwmaGetNextWorkRequired (BlockIndex h t c prev) pblock params
  = Some (GetCompact (UintToArith256 (BCDBeginPowLimit params))) /\
  LwmaCalculateNextWorkRequired (BlockIndex h t c prev) params
  = LwmaCalculateNextWorkRequired (BlockIndex h t c None) params.
Proof.
  intros Hre Hgap Hlt.
  unfold LwmaGetNextWorkRequired. rewrite Hgap.
  unfold LwmaCalculateNextWorkRequired. rewrite Hre. cbn [nHeight].
  apply Z.ltb_lt in Hlt. rewrite Hlt. split; reflexivity.
Qed.

Lemma Lwma_bootstrap_witness :
  LwmaGetNextWorkRequired (BlockIndex 1 600 hex_1d00ffff None) (BlockHeader 1200)
    scenario_params = Some 503382015.
Proof.
  apply (Lwma_bootstrap 1 600 hex_1d00ffff None (BlockHeader 1200)
           scenario_params); vm_compute; reflexivity.
Defined.

(** ** C5: the legacy retarget off a boundary *)

Lemma CBlockIndex_chain_ind (P : CBlockIndex -> Prop) :
  (forall h t c, P (BlockIndex h t c None)) ->
  (forall h t c p, P p -> P (BlockIndex h t c (Some p))) ->
  forall b, P b.
Proof.
  intros Hnone Hsome.
  fix IH 1. intros [h t c [p |]].
  - apply Hsome. apply IH.
  - apply Hnone.
Qed.

Lemma c_rem_nonzero a b : b <> 0 -> c_rem a b = Some (Z.rem a b).
Proof. intros H. unfold c_rem. apply Z.eqb_neq in H. now rewrite H. Qed.

(** The loop returns the bits of the first block, counting back from the
    start, from which the walk does not move on. *)
Lemma last_non_special_first_stop params di limitBits :
  DifficultyAdjustmentInterval params = Some di -> di <> 0 ->
  forall pindex,
  exists n b,
    nth_error (chain_blocks pindex) n = Some b /\
    last_non_special params limitBits pindex = Some (nBits b) /\
    (forall m b', (m < n)%nat -> nth_error (chain_blocks pindex) m = Some b' ->
                  walk_continues di limitBits b') /\
    ~ walk_continues di limitBits b.
Proof.
  intros Hdi Hnz pindex.
  induction pindex as [h t c | h t c p IH] using CBlockIndex_chain_ind.
  - exists 0%nat, (BlockIndex h t c None).
    split; [reflexivity |]. split; [reflexivity |]. split.
    + intros m b' Hm. inversion Hm.
    + intros [Hp _]. now apply Hp.
  - cbn [last_non_special]. rewrite Hdi. cbn [bind].
    rewrite (c_rem_nonzero h di Hnz). cbn [bind].
    destruct (negb (Z.rem h di =? 0) && (c =? limitBits)) eqn:Hc.
    + destruct IH as (n & b & Hnth & Hres & Hbefore & Hstop).
      apply andb_prop in Hc as [Hc1 Hc2].
      apply negb_true_iff, Z.eqb_neq in Hc1. apply Z.eqb_eq in Hc2.
      exists (S n), b.
      split; [exact Hnth |]. split; [exact Hres |]. split; [| exact Hstop].
      intros m b' Hm Hb'. destruct m as [| m]; cbn in Hb'.
      * injection Hb' as <-. unfold walk_continues. cbn.
        split; [discriminate |]. split; assumption.
      * apply (Hbefore m b'); [lia | exact Hb'].
    + exists 0%nat, (BlockIndex h t c (Some p)).
      split; [reflexivity |]. split; [reflexivity |]. split.
      * intros m b' Hm. inversion Hm.
      * intros (_ & Hr & Hb). cbn in Hr, Hb.
        apply andb_false_iff in Hc as [Hc | Hc].
        -- apply negb_false_iff, Z.eqb_eq in Hc. contradiction.
        -- apply Z.eqb_neq in Hc. contradiction.
Qed.



(** After the fork the effective interval is 72, while the walk keeps
    testing each block's own height against the legacy interval: block 172,
    72 blocks after the fork at 100, carries the limit's bits and is walked
    over, and the bits of block 171 are returned. *)
Remark walk_tests_legacy_interval_after_fork :
  legacy_height_interval post_fork_chain post_fork_testnet_params
  = Some (74, 72) /\
  Z.rem (172 - BCDHeight post_fork_testnet_params) 72 = 0 /\
  DifficultyAdjustmentInterval post_fork_testnet_params = Some 2016 /\
  BCDGetNextWorkRequired post_fork_chain (BlockHeader 104400)
    post_fork_testnet_params = Some hex_1c00ffff.
Proof. repeat split. Qed.


(** ** C4: the minimum-difficulty rule *)





(** ** The compact codec *)

Lemma bits_range v : 0 <= v < 2 ^ 256 -> 0 <= bits v <= 256 /\ v < 2 ^ bits v.
Proof.
  intros Hv. unfold bits.
  destruct (Z.eqb_spec v 0) as [-> | Hnz].
  - cbn. lia.
  - assert (Hpos : 0 < v) by lia.
    pose proof (Z.log2_spec v Hpos) as Hs.
    pose proof (Z.log2_nonneg v) as Hl.
    pose proof (proj1 (Z.log2_lt_pow2 v 256 Hpos) ltac:(lia)) as Hlt.
    replace (Z.succ (Z.log2 v)) with (Z.log2 v + 1) in Hs by lia.
    lia.
Qed.

Lemma compact_size_range v :
  0 <= v < 2 ^ 256 ->
  0 <= (bits v + 7) / 8 <= 32 /\ v < 2 ^ (8 * ((bits v + 7) / 8)).
Proof.
  intros Hv. destruct (bits_range v Hv) as [Hb Hlt].
  assert (Hs : 0 <= (bits v + 7) / 8 <= 32 /\ bits v <= 8 * ((bits v + 7) / 8)).
  { Z.div_mod_to_equations. lia. }
  split; [tauto |].
  eapply Z.lt_le_trans; [exact Hlt |].
  apply Z.pow_le_mono_r; lia.
Qed.

(** Bit 23 of a 24-bit mantissa is clear exactly below [2^23]. *)
Lemma sign_bit_clear m :
  0 <= m < 2 ^ 24 -> Z.land m 8388608 = 0 -> m < 2 ^ 23.
Proof.
  intros Hm Hl.
  destruct (Z_lt_le_dec m (2 ^ 23)) as [| Hge]; [assumption | exfalso].
  assert (Hb : Z.testbit (Z.land m 8388608) 23 = true).
  { rewrite Z.land_spec. change 8388608 with (2 ^ 23).
    rewrite Z.pow2_bits_true by lia. rewrite andb_true_r.
    apply Z.testbit_true; [lia |].
    assert (m / 2 ^ 23 = 1) as ->; [| reflexivity].
    symmetry. apply (Z.div_unique m (2 ^ 23) 1 (m - 2 ^ 23)); lia. }
  rewrite Hl in Hb. rewrite Z.bits_0 in Hb. discriminate.
Qed.

(** Decoding a size and a 23-bit mantissa packed into one word. *)
Lemma SetCompact_pack c sz :
  0 <= c < 2 ^ 23 -> 0 <= sz ->
  SetCompact (Z.lor c (Z.shiftl sz 24))
  = if sz <=? 3 then Z.shiftr c (8 * (3 - sz))
    else u256 (Z.shiftl c (8 * (sz - 3))).
Proof.
  intros Hc Hsz.
  assert (Hsize : Z.shiftr (Z.lor c (Z.shiftl sz 24)) 24 = sz).
  { rewrite Z.shiftr_lor, Z.shiftr_shiftl_l by lia.
    rewrite Z.sub_diag, Z.shiftl_0_r.
    rewrite Z.shiftr_div_pow2 by lia.
    rewrite Z.div_small by lia. reflexivity. }
  assert (Hword : Z.land (Z.lor c (Z.shiftl sz 24)) 8388607 = c).
  { rewrite Z.land_lor_distr_l.
    change 8388607 with (Z.ones 23). rewrite !Z.land_ones by lia.
    rewrite Z.mod_small by lia.
    rewrite Z.shiftl_mul_pow2 by lia.
    change (2 ^ 24) with (2 * 2 ^ 23).
    rewrite Z.mul_assoc, Z.mod_mul by lia.
    apply Z.lor_0_r. }
  unfold SetCompact, SetCompact_full. cbn [fst].
  rewrite Hsize, Hword. now destruct (sz <=? 3).
Qed.

Lemma shift_down_up_le a n : 0 <= a -> 0 <= n -> Z.shiftl (Z.shiftr a n) n <= a.
Proof.
  intros Ha Hn.
  rewrite Z.shiftl_mul_pow2, Z.shiftr_div_pow2 by lia.
  assert (0 < 2 ^ n) by (apply Z.pow_pos_nonneg; lia).
  pose proof (Z.mul_div_le a (2 ^ n) ltac:(lia)). lia.
Qed.

Lemma shift_up_down a n : 0 <= n -> Z.shiftr (Z.shiftl a n) n = a.
Proof.
  intros Hn. rewrite Z.shiftr_shiftl_l by lia.
  rewrite Z.sub_diag. apply Z.shiftl_0_r.
Qed.

Lemma u256_le_of_le x v : 0 <= x <= v -> v < 2 ^ 256 -> u256 x <= v.
Proof. intros Hx Hv. rewrite u256_small; lia. Qed.

(** Encoding truncates: the value read back from a compact encoding never
    exceeds the value encoded. *)
Lemma GetCompact_decode_le v :
  0 <= v < 2 ^ 256 -> SetCompact (GetCompact v) <= v.
Proof.
  intros Hv. destruct (compact_size_range v Hv) as [Hs Hlt].
  unfold GetCompact. set (nSize := (bits v + 7) / 8) in *.
  destruct (nSize <=? 3) eqn:E3.
  - apply Z.leb_le in E3.
    set (k := 8 * (3 - nSize)).
    assert (Hk : 0 <= k) by (unfold k; lia).
    assert (Hpk : 0 < 2 ^ k) by (apply Z.pow_pos_nonneg; lia).
    assert (Hsplit : 2 ^ (8 * nSize) * 2 ^ k = 2 ^ 24).
    { rewrite <- Z.pow_add_r by lia. f_equal. unfold k. lia. }
    assert (Hm : 0 <= v * 2 ^ k < 2 ^ 24) by nia.
    assert (Hv24 : v < 2 ^ 24) by nia.
    assert (Hc0 : uint32 (uint64 (Z.shiftl (GetLow64 v) k)) = Z.shiftl v k).
    { unfold GetLow64. rewrite (Z.mod_small v) by lia.
      rewrite Z.shiftl_mul_pow2 by lia.
      rewrite uint64_small, uint32_small; lia. }
    rewrite Hc0.
    assert (Hm' : 0 <= Z.shiftl v k < 2 ^ 24)
      by (rewrite Z.shiftl_mul_pow2 by lia; exact Hm).
    destruct (Z.land (Z.shiftl v k) 8388608 =? 0) eqn:Esign; cbn [negb].
    + apply Z.eqb_eq in Esign.
      pose proof (sign_bit_clear _ Hm' Esign) as H23.
      rewrite SetCompact_pack by lia.
      rewrite (proj2 (Z.leb_le nSize 3) E3). fold k.
      rewrite shift_up_down by lia. lia.
    + assert (Hc : 0 <= Z.shiftr (Z.shiftl v k) 8 < 2 ^ 23).
      { rewrite Z.shiftr_div_pow2 by lia. change (2 ^ 8) with 256.
        Z.div_mod_to_equations. lia. }
      rewrite SetCompact_pack by lia.
      destruct (nSize + 1 <=? 3) eqn:E2.
      * apply Z.leb_le in E2.
        rewrite Z.shiftr_shiftr by lia.
        replace (8 + 8 * (3 - (nSize + 1))) with k by (unfold k; lia).
        rewrite shift_up_down by lia. lia.
      * apply Z.leb_gt in E2.
        assert (nSize = 3) as E by lia.
        assert (k = 0) as -> by (unfold k; lia).
        rewrite E, Z.shiftl_0_r. change (8 * (3 + 1 - 3)) with 8.
        apply u256_le_of_le; [| lia].
        split; [| apply shift_down_up_le; lia].
        apply Z.shiftl_nonneg, Z.shiftr_nonneg. lia.
  - apply Z.leb_gt in E3.
    set (s := 8 * (nSize - 3)).
    assert (Hs8 : 8 <= s) by (unfold s; lia).
    assert (Hps : 0 < 2 ^ s) by (apply Z.pow_pos_nonneg; lia).
    assert (Hsplit : 2 ^ s * 2 ^ 24 = 2 ^ (8 * nSize)).
    { rewrite <- Z.pow_add_r by lia. f_equal. unfold s. lia. }
    assert (Hm : 0 <= Z.shiftr v s < 2 ^ 24).
    { rewrite Z.shiftr_div_pow2 by lia. split.
      - apply Z.div_pos; lia.
      - apply Z.div_lt_upper_bound; lia. }
    assert (Hc0 : uint32 (GetLow64 (Z.shiftr v s)) = Z.shiftr v s).
    { unfold GetLow64. rewrite Z.mod_small by lia. apply uint32_small. lia. }
    rewrite Hc0.
    destruct (Z.land (Z.shiftr v s) 8388608 =? 0) eqn:Esign; cbn [negb].
    + apply Z.eqb_eq in Esign.
      pose proof (sign_bit_clear _ Hm Esign) as H23.
      rewrite SetCompact_pack by lia.
      rewrite (proj2 (Z.leb_gt nSize 3) E3). fold s.
      apply u256_le_of_le; [| lia].
      split; [| apply shift_down_up_le; lia].
      apply Z.shiftl_nonneg. lia.
    + assert (Hc : 0 <= Z.shiftr (Z.shiftr v s) 8 < 2 ^ 23).
      { rewrite (Z.shiftr_div_pow2 _ 8) by lia. change (2 ^ 8) with 256.
        Z.div_mod_to_equations. lia. }
      rewrite SetCompact_pack by lia.
      rewrite (proj2 (Z.leb_gt (nSize + 1) 3)) by lia.
      rewrite Z.shiftr_shiftr by lia.
      replace (8 * (nSize + 1 - 3)) with (s + 8) by (unfold s; lia).
      apply u256_le_of_le; [| lia].
      split; [| apply shift_down_up_le; lia].
      apply Z.shiftl_nonneg, Z.shiftr_nonneg. lia.
Qed.

(** ** C3: the boundary retarget *)

Lemma retarget_timespan_limit pindexLast params limit ts :
  retarget_timespan pindexLast params = (limit, ts) -> limit = 2 \/ limit = 4.
Proof.
  unfold retarget_timespan.
  destruct (int32 (nHeight pindexLast + 1) >? BCDHeight params);
    intros [= <- _]; auto.
Qed.

Lemma clamp_timespan_range limit ts n :
  0 < limit -> 0 < ts -> ts * limit < 2 ^ 31 ->
  ts / limit <= clamp_timespan limit ts n <= ts * limit.
Proof.
  intros Hl Hts Hr. unfold clamp_timespan.
  rewrite Z.quot_div_nonneg by lia.
  rewrite int32_small by (unfold in_int32; nia).
  assert (ts / limit <= ts * limit).
  { apply Z.le_trans with ts; [apply Z.div_le_upper_bound; nia | nia]. }
  destruct (n <? ts / limit) eqn:E1.
  - destruct (ts / limit >? ts * limit) eqn:E2; [| lia].
    apply Z.gtb_gt in E2. lia.
  - apply Z.ltb_ge in E1.
    pose proof (Zgt_cases n (ts * limit)) as E2.
    destruct (n >? ts * limit); lia.
Qed.




(** The lower bound needs the limit factor to divide the timespan: with a
    timespan of six seconds the shortest admitted timespan is [6 / 4 = 1],
    and the new target is a sixth of the old one. *)
Remark lower_bound_needs_divisibility :
  let old := SetCompact hex_1c00ffff in
  retarget_timespan (block_at 5 0 hex_1c00ffff None) odd_timespan_params = (4, 6) /\
  clamp_timespan 4 6 0 = 1 /\
  retarget_bnNew (block_at 5 0 hex_1c00ffff None) 0 odd_timespan_params
  = Some (old / 6) /\
  old / 6 < old / 4.
Proof. repeat split. Qed.

(** ** C7: the LWMA steady state *)

Lemma tri_double j : 2 * tri j = j * (j + 1).
Proof.
  unfold tri.
  assert (Hev : exists c, j * (j + 1) = 2 * c).
  { destruct (Z.Even_or_Odd j) as [[m ->] | [m ->]].
    - exists (m * (2 * m + 1)). ring.
    - exists ((2 * m + 1) * (m + 1)). ring. }
  destruct Hev as [c ->].
  rewrite (Z.mul_comm 2 c), Z.div_mul by lia. ring.
Qed.

Lemma tri_succ j : tri (j + 1) = tri j + (j + 1).
Proof.
  pose proof (tri_double j). pose proof (tri_double (j + 1)). lia.
Qed.

Lemma tri_mono j n : 0 <= j <= n -> 0 <= tri j <= tri n.
Proof.
  intros H. pose proof (tri_double j). pose proof (tri_double n). nia.
Qed.

Lemma lwma_k_exact N T :
  0 <= N -> 0 <= T -> N * (N + 1) * T < 2 ^ 63 ->
  lwma_k N T = T * tri N.
Proof.
  intros HN HT Hfit. unfold lwma_k.
  pose proof (tri_double N) as Hd.
  assert (0 <= N * (N + 1)) by nia.
  assert (0 <= T * tri N) by nia.
  destruct (Z.eq_dec T 0) as [-> | HTnz].
  { rewrite Z.mul_0_r. rewrite (int64_small 0) by in_range.
    cbn. reflexivity. }
  assert (N * (N + 1) < 2 ^ 63) by nia.
  rewrite (int64_small (N + 1)) by (unfold in_int64; nia).
  rewrite (int64_small (N * (N + 1))) by in_range.
  rewrite (int64_small (N * (N + 1) * T)) by (unfold in_int64; nia).
  rewrite Z.quot_div_nonneg by nia.
  replace (N * (N + 1) * T) with (T * tri N * 2) by lia.
  rewrite Z.div_mul by lia.
  apply int64_small. unfold in_int64. nia.
Qed.


Section SteadyState.

Variable pindexLast : CBlockIndex.
Variables T N kN X t0 : Z.

Hypothesis T_pos : 0 < T.
Hypothesis N_pos : 0 < N.
Hypothesis k_fits : T * tri N < 2 ^ 31.
Hypothesis kN_def : kN = T * tri N * N.
Hypothesis kN_fits : kN < 2 ^ 63.
Hypothesis X_range : 0 <= X < 2 ^ 256.

(** The last [N + 1] blocks are spaced by [T], and the last [N] of them
    carry bits that decode to [X]. *)
Hypothesis steady :
  forall j, 0 <= j <= N ->
  exists b, GetAncestor pindexLast (nHeight pindexLast - N + j) = Some b /\
            GetBlockTime b = t0 + j * T /\
            (0 < j -> SetCompact (nBits b) = X).





End SteadyState.




(** ** C8: the ceiling *)

Lemma compact_limit_le x : SetCompact (GetCompact (UintToArith256 x)) <= UintToArith256 x.
Proof. apply GetCompact_decode_le. apply u256_range. Qed.

Lemma chain_blocks_head b : In b (chain_blocks b).
Proof. destruct b as [h t c [p |]]; cbn; auto. Qed.

Lemma chain_blocks_prev h t c p b :
  In b (chain_blocks p) -> In b (chain_blocks (BlockIndex h t c (Some p))).
Proof. intros H. cbn. auto. Qed.

Lemma last_non_special_in_chain params limitBits pindex r :
  last_non_special params limitBits pindex = Some r ->
  exists b, In b (chain_blocks pindex) /\ r = nBits b.
Proof.
  revert r.
  induction pindex as [h t c | h t c p IH] using CBlockIndex_chain_ind;
    intros r Hr.
  - cbn in Hr. injection Hr as <-.
    exists (BlockIndex h t c None). split; [apply chain_blocks_head | reflexivity].
  - cbn [last_non_special] in Hr.
    destruct (DifficultyAdjustmentInterval params) as [di |]; [| discriminate].
    cbn [bind] in Hr.
    destruct (c_rem h di) as [m |]; [| discriminate]. cbn [bind] in Hr.
    destruct (negb (m =? 0) && (c =? limitBits)).
    + destruct (IH r Hr) as (b & Hin & Hb).
      exists b. split; [apply chain_blocks_prev, Hin | exact Hb].
    + injection Hr as <-.
      exists (BlockIndex h t c (Some p)).
      split; [apply chain_blocks_head | reflexivity].
Qed.

Lemma clamp_le_limit x L :
  0 <= x -> 0 <= L < 2 ^ 256 ->
  0 <= (if x >? L then L else x) <= L /\ (if x >? L then L else x) < 2 ^ 256.
Proof.
  intros Hx HL. pose proof (Zgt_cases x L) as C.
  destruct (x >? L); lia.
Qed.

Lemma CalculateNextWorkRequired_ceiling pindexLast nFirstBlockTime params r :
  CalculateNextWorkRequired pindexLast nFirstBlockTime params = Some r ->
  SetCompact r <= UintToArith256 (powLimit params) \/ r = nBits pindexLast.
Proof.
  unfold CalculateNextWorkRequired.
  destruct (fPowNoRetargeting params).
  - intros [= <-]. now right.
  - unfold retarget_bnNew.
    destruct (retarget_timespan pindexLast params) as [limit ts].
    unfold div.
    destruct (of_uint64 ts =? 0) eqn:Ez; cbn [bind]; [discriminate |].
    intros Hr. apply Some_inj in Hr. subst r. left.
    apply Z.eqb_neq in Ez.
    set (a := mul_u32 _ _).
    assert (Ha : 0 <= a) by apply u256_range.
    assert (Hb : 0 < of_uint64 ts).
    { unfold of_uint64, uint64 in *.
      pose proof (Z.mod_pos_bound ts (2 ^ 64) ltac:(lia)). lia. }
    assert (Hq : 0 <= a / of_uint64 ts) by (apply Z.div_pos; lia).
    pose proof (clamp_le_limit (a / of_uint64 ts)
                  (UintToArith256 (powLimit params)) Hq
                  (u256_range (powLimit params))) as [Hc1 Hc2].
    eapply Z.le_trans; [apply GetCompact_decode_le; lia | lia].
Qed.

Lemma BCDGetNextWorkRequired_ceiling pindexLast pblock params r :
  BCDGetNextWorkRequired pindexLast pblock params = Some r ->
  SetCompact r <= UintToArith256 (powLimit params) \/
  exists b, In b (chain_blocks pindexLast) /\ r = nBits b.
Proof.
  unfold BCDGetNextWorkRequired.
  destruct (legacy_height_interval pindexLast params) as [[height interval] |];
    [| discriminate]. cbn [bind].
  destruct (c_rem height interval) as [m |]; [| discriminate]. cbn [bind].
  destruct (negb (m =? 0)).
  - destruct (fPowAllowMinDifficultyBlocks params).
    + destruct (gap_exceeded pindexLast pblock params).
      * intros Hr. apply Some_inj in Hr. subst r. left. apply compact_limit_le.
      * intros Hr. right. eapply last_non_special_in_chain, Hr.
    + intros [= <-]. right.
      exists pindexLast. split; [apply chain_blocks_head | reflexivity].
  - destruct (_ <? 0); [discriminate |].
    destruct (GetAncestor pindexLast _) as [pindexFirst |]; [| discriminate].
    cbn [bind]. intros Hr.
    destruct (CalculateNextWorkRequired_ceiling _ _ _ _ Hr) as [H | H].
    + now left.
    + right. exists pindexLast. split; [apply chain_blocks_head | exact H].
Qed.

Lemma LwmaGetNextWorkRequired_ceiling pindexLast pblock params r :
  LwmaGetNextWorkRequired pindexLast pblock params = Some r ->
  SetCompact r <= UintToArith256 (BCDBeginPowLimit params) \/ r = nBits pindexLast.
Proof.
  unfold LwmaGetNextWorkRequired.
  destruct (_ && _).
  - intros Hr. apply Some_inj in Hr. subst r. left. apply compact_limit_le.
  - unfold LwmaCalculateNextWorkRequired.
    destruct (fPowNoRetargeting params).
    + intros [= <-]. now right.
    + destruct (_ <? _).
      * intros Hr. apply Some_inj in Hr. subst r. left. apply compact_limit_le.
      * destruct (GetAncestor pindexLast _) as [b0 |]; [| discriminate].
        cbn [bind].
        destruct (lwma_for _ _ _ _ _ _) as [v |]; [| discriminate].
        cbn [bind]. intros Hr. apply Some_inj in Hr. subst r. left.
        pose proof (clamp_le_limit
                      (mul_u32 (avgTarget v) (sumWeightedSolvetimes v))
                      (UintToArith256 (BCDBeginPowLimit params))
                      (proj1 (u256_range _))
                      (u256_range (BCDBeginPowLimit params))) as [Hc1 Hc2].
        eapply Z.le_trans; [apply GetCompact_decode_le; lia | lia].
Qed.

(** C8, as the code has it. A value returned by [GetNextWorkRequired]
    either decodes to a target within the applicable ceiling, or is the
    stored [nBits] of a block of the chain, returned unchanged. So the result
    is within the ceiling whenever the bits of every block of the chain
    are. *)
Theorem result_within_ceiling_or_copied pindexLast pblock params r :
  GetNextWorkRequired pindexLast pblock params = Some r ->
  (SetCompact r <= applicable_ceiling pindexLast params \/
   exists b, In b (chain_blocks pindexLast) /\ r = nBits b) /\
  ((forall b, In b (chain_blocks pindexLast) ->
              SetCompact (nBits b) <= applicable_ceiling pindexLast params) ->
   SetCompact r <= applicable_ceiling pindexLast params).
Proof.
  intros Hr.
  assert (Hmain : SetCompact r <= applicable_ceiling pindexLast params \/
                  exists b, In b (chain_blocks pindexLast) /\ r = nBits b).
  { unfold GetNextWorkRequired in Hr. unfold applicable_ceiling. cbv zeta.
    destruct (int32 (nHeight pindexLast + 1) =? BCDHeight params).
    { apply Some_inj in Hr. subst r. left. apply compact_limit_le. }
    destruct (int32 (nHeight pindexLast + 1) =? int32 (BCDHeight params + 1)).
    { apply Some_inj in Hr. subst r. left. apply compact_limit_le. }
    destruct (int32 (nHeight pindexLast + 1) <? ZawyLWMAHeight params).
    - apply (BCDGetNextWorkRequired_ceiling _ _ _ _ Hr).
    - destruct (LwmaGetNextWorkRequired_ceiling _ _ _ _ Hr) as [H | H].
      + now left.
      + right. exists pindexLast. split; [apply chain_blocks_head | exact H]. }
  split; [exact Hmain |].
  intros Hall. destruct Hmain as [H | (b & Hin & ->)]; [exact H |].
  apply Hall, Hin.
Qed.

Lemma result_within_ceiling_or_copied_witness :
  SetCompact 461373312 <= applicable_ceiling two_block_chain short_interval_params.
Proof.
  refine (proj2 (result_within_ceiling_or_copied two_block_chain
                   (BlockHeader 1200) short_interval_params 461373312 _) _).
  - vm_compute. reflexivity.
  - intros b [<- | [<- | []]]; vm_compute; congruence.
Defined.

(** C8 as stated fails where stored bits are handed back. Off a boundary,
    with the minimum-difficulty rule off, the legacy retarget returns the
    last block's bits whatever they are: here [0x207fffff], which decodes
    to a target above both limits. *)
Lemma copied_bits_counterexample :
  GetNextWorkRequired (block_at 98 0 hex_207fffff None) (BlockHeader 600)
    scenario_params = Some hex_207fffff /\
  compact_negative hex_207fffff = false /\
  compact_overflow hex_207fffff = false /\
  SetCompact hex_207fffff > UintToArith256 (powLimit scenario_params) /\
  SetCompact hex_207fffff > UintToArith256 (BCDBeginPowLimit scenario_params) /\
  SetCompact hex_207fffff
    > applicable_ceiling (block_at 98 0 hex_207fffff None) scenario_params.
Proof.
  repeat split.
Qed.

(** The same happens on a chain the dispatcher itself dictated: the block
    one after the fork carries the compact [BCDBeginPowLimit], the legacy
    retarget hands those bits on to the next block, and they decode to a
    target above [powLimit], the limit the legacy retarget clamps to. *)
Remark post_fork_bits_exceed_powLimit :
  GetNextWorkRequired (block_at 100 600 hex_1d00ffff None) (BlockHeader 1200)
    scenario_params = Some 503382015 /\
  GetNextWorkRequired (block_at 101 1200 503382015 None) (BlockHeader 1800)
    scenario_params = Some 503382015 /\
  SetCompact 503382015 > UintToArith256 (powLimit scenario_params).
Proof. repeat split. Qed.

(** ** C9: the two revisions of the LWMA computation *)

Lemma int64_congr x : exists z, int64 x = x + 2 ^ 64 * z.
Proof.
  unfold int64, wrap_signed. change (2 ^ (64 - 1)) with (2 ^ 63).
  exists (- ((x + 2 ^ 63) / 2 ^ 64)).
  pose proof (Z.div_mod (x + 2 ^ 63) (2 ^ 64) ltac:(lia)). lia.
Qed.

(** The product [N * (N + 1)], as the code computes it, is even. *)
Lemma window_product_even N : exists c, int64 (N * int64 (N + 1)) = 2 * c.
Proof.
  destruct (int64_congr (N + 1)) as [z1 ->].
  destruct (int64_congr (N * (N + 1 + 2 ^ 64 * z1))) as [z2 ->].
  pose proof (tri_double N) as Hd.
  exists (tri N + 2 ^ 63 * (N * z1) + 2 ^ 63 * z2).
  change (2 ^ 64) with (2 * 2 ^ 63). lia.
Qed.

Lemma lwma_k_agree N T :
  in_int64 (int64 (N * int64 (N + 1)) * T) ->
  lwma_k N T = Part000.lwma_k N T.
Proof.
  intros Hfit. unfold lwma_k, Part000.lwma_k.
  pose proof (int64_range (N * int64 (N + 1))) as HA.
  destruct (window_product_even N) as [c Hc].
  rewrite Hc in *.
  rewrite (int64_small (2 * c * T)) by exact Hfit.
  replace (2 * c * T) with (c * T * 2) by ring.
  replace (2 * c) with (c * 2) by ring.
  rewrite !Z.quot_mul by lia.
  rewrite (int64_small c) by (unfold in_int64 in *; lia).
  reflexivity.
Qed.

Lemma lwma_body_sum_range pindexLast T kN i v v' :
  lwma_body pindexLast T kN i v = Some v' ->
  in_int32 (sumWeightedSolvetimes v').
Proof.
  unfold lwma_body.
  destruct (GetAncestor pindexLast i) as [b |]; [| discriminate]. cbn [bind].
  destruct (div _ _) as [q |]; [| discriminate]. cbn [bind].
  intros H. apply Some_inj in H. subst v'. cbn. apply int32_range.
Qed.

Lemma lwma_loop_sum_range pindexLast T kN n :
  forall i v v',
  in_int32 (sumWeightedSolvetimes v) ->
  lwma_loop pindexLast T kN n i v = Some v' ->
  in_int32 (sumWeightedSolvetimes v').
Proof.
  induction n as [| n IH]; intros i v v' Hv Hl; cbn [lwma_loop] in Hl.
  - apply Some_inj in Hl. now subst v'.
  - destruct (lwma_body pindexLast T kN i v) as [v1 |] eqn:Hb; [| discriminate].
    cbn [bind] in Hl.
    apply (IH (i + 1) v1 v'); [| exact Hl].
    eapply lwma_body_sum_range, Hb.
Qed.

Lemma lwma_window_sum_range pindexLast params k v :
  lwma_window pindexLast params k = Some v ->
  in_int32 (sumWeightedSolvetimes v).
Proof.
  unfold lwma_window.
  destruct (GetAncestor pindexLast _) as [b0 |]; [| discriminate]. cbn [bind].
  unfold lwma_for. destruct (_ && _); [discriminate |].
  apply lwma_loop_sum_range. cbn. unfold in_int32. lia.
Qed.

(** The two multiplications agree on a non-negative [int]. *)
Lemma products_agree a t :
  0 <= t -> in_int32 t -> mul_u32 a t = mul (of_uint64 t) a.
Proof.
  intros H0 Hr. unfold in_int32 in Hr. unfold mul_u32, mul, of_uint64.
  rewrite uint32_small, uint64_small by lia. f_equal. ring.
Qed.

Lemma revisions_agree_general pindexLast params :
  let T := nPowTargetSpacing params in
  let N := nZawyLwmaAveragingWindow params in
  in_int64 (int64 (N * int64 (N + 1)) * T) ->
  (forall v, lwma_window pindexLast params (lwma_k N T) = Some v ->
             0 <= sumWeightedSolvetimes v) ->
  LwmaCalculateNextWorkRequired pindexLast params
  = Part000.LwmaCalculateNextWorkRequired pindexLast params.
Proof.
  intros T N Hfit Hsum.
  unfold LwmaCalculateNextWorkRequired, Part000.LwmaCalculateNextWorkRequired.
  fold T N. rewrite <- (lwma_k_agree N T Hfit).
  destruct (fPowNoRetargeting params); [reflexivity |].
  destruct (nHeight pindexLast <? N); [reflexivity |].
  pose proof (Hsum) as Hsum'. pose proof (lwma_window_sum_range pindexLast params
                                           (lwma_k N T)) as Hrange.
  unfold lwma_window in Hsum', Hrange. fold T N in Hsum', Hrange.
  destruct (GetAncestor pindexLast (int32 (int64 (nHeight pindexLast - N))))
    as [b0 |]; [| reflexivity].
  cbn [bind] in *.
  destruct (lwma_for _ _ _ _ _ _) as [v |]; [| reflexivity].
  cbn [bind].
  rewrite (products_agree (avgTarget v) (sumWeightedSolvetimes v)
             (Hsum' v eq_refl) (Hrange v eq_refl)).
  reflexivity.
Qed.

Lemma walk_prev_in_chain n :
  forall b b', walk_prev n b = Some b' -> In b' (chain_blocks b).
Proof.
  induction n as [| n IH]; intros b b' H; cbn [walk_prev] in H.
  - apply Some_inj in H. subst b'. apply chain_blocks_head.
  - destruct b as [h t c [p |]]; cbn in H; [| discriminate].
    apply chain_blocks_prev, IH, H.
Qed.

Lemma GetAncestor_in_chain b height b' :
  GetAncestor b height = Some b' -> In b' (chain_blocks b).
Proof.
  unfold GetAncestor. destruct (_ || _); [discriminate |].
  apply walk_prev_in_chain.
Qed.

Section BoundedSum.

Variable pindexLast : CBlockIndex.
Variables T N kN : Z.

Hypothesis T_pos : 0 < T.
Hypothesis N_nonneg : 0 <= N.
Hypothesis sum_fits : 6 * T * tri N < 2 ^ 31.
Hypothesis times_32bit :
  forall b, In b (chain_blocks pindexLast) -> 0 <= nTime b < 2 ^ 32.

Lemma window_small : N < 2 ^ 31.
Proof. pose proof (tri_double N). nia. Qed.

Lemma lwma_body_bounded i v v' :
  lwma_body pindexLast T kN i v = Some v' ->
  0 <= weight v < N -> bounded_vars T v ->
  weight v' = weight v + 1 /\ bounded_vars T v'.
Proof.
  unfold lwma_body, bounded_vars.
  destruct (GetAncestor pindexLast i) as [b |] eqn:Hb; [| discriminate].
  cbn [bind].
  destruct (div _ _) as [q |]; [| discriminate]. cbn [bind].
  intros H Hw [Hsum Hprev]. apply Some_inj in H. subst v'.
  cbn [weight sumWeightedSolvetimes previousTimestamp].
  pose proof (times_32bit b (GetAncestor_in_chain _ _ _ Hb)) as Ht.
  pose proof window_small as HN.
  fold (GetBlockTime b) in Ht.
  set (w := weight v) in *. set (prev := previousTimestamp v) in *.
  set (sum := sumWeightedSolvetimes v) in *.
  rewrite (int32_small (w + 1)) by in_range.
  rewrite (int64_small (prev + 1)) by in_range.
  set (this := if GetBlockTime b >? prev then GetBlockTime b else prev + 1).
  assert (Hthis : prev < this <= 2 ^ 32 + (w + 1)).
  { unfold this. pose proof (Zgt_cases (GetBlockTime b) prev) as C.
    destruct (GetBlockTime b >? prev); lia. }
  pose proof (tri_mono 1 N ltac:(lia)) as Hone. change (tri 1) with 1 in Hone.
  assert (H6T : 6 * T <= 6 * T * tri N) by nia.
  rewrite (int64_small (6 * T)) by in_range.
  rewrite (int64_small (this - prev)) by in_range.
  set (solvetime := Z.min (6 * T) (this - prev)).
  assert (Hsolve : 0 <= solvetime <= 6 * T) by (unfold solvetime; lia).
  pose proof (tri_mono (w + 1) N ltac:(lia)) as Hmono.
  pose proof (tri_succ w) as Hsucc.
  assert (Hterm : 0 <= solvetime * (w + 1) <= 6 * T * (w + 1)) by nia.
  assert (Hnew : 0 <= sum + solvetime * (w + 1) <= 6 * T * tri (w + 1)) by nia.
  assert (Hcap : 6 * T * tri (w + 1) <= 6 * T * tri N) by nia.
  rewrite (int64_small (solvetime * (w + 1))) by in_range.
  rewrite (int64_small (sum + solvetime * (w + 1))) by in_range.
  rewrite (int32_small (sum + solvetime * (w + 1))) by in_range.
  repeat split; lia.
Qed.

Lemma lwma_loop_bounded n :
  forall i v v',
  lwma_loop pindexLast T kN n i v = Some v' ->
  0 <= weight v -> weight v + Z.of_nat n <= N -> bounded_vars T v ->
  bounded_vars T v'.
Proof.
  induction n as [| n IH]; intros i v v' Hl Hw Hn Hv; cbn [lwma_loop] in Hl.
  - apply Some_inj in Hl. now subst v'.
  - destruct (lwma_body pindexLast T kN i v) as [v1 |] eqn:Hb; [| discriminate].
    cbn [bind] in Hl.
    destruct (lwma_body_bounded i v v1 Hb ltac:(lia) Hv) as [Hw1 Hv1].
    apply (IH (i + 1) v1 v' Hl); [lia | lia | exact Hv1].
Qed.

Lemma lwma_for_sum_nonneg first b0 v :
  0 <= nHeight pindexLast < 2 ^ 31 ->
  N <= nHeight pindexLast ->
  first = int32 (int64 (int64 (nHeight pindexLast - N) + 1)) ->
  In b0 (chain_blocks pindexLast) ->
  lwma_for pindexLast T kN first (nHeight pindexLast)
    (mkVars (GetBlockTime b0) 0 0 0) = Some v ->
  0 <= sumWeightedSolvetimes v.
Proof.
  intros Hh HNh -> Hb0. unfold lwma_for.
  set (height := nHeight pindexLast) in *.
  pose proof (times_32bit b0 Hb0) as Ht0. fold (GetBlockTime b0) in Ht0.
  rewrite (int64_small (height - N)) by in_range.
  rewrite (int64_small (height - N + 1)) by in_range.
  destruct (Z.eq_dec height INT_MAX) as [Hmax | Hmax].
  - (* the loop counter cannot pass [INT_MAX] *)
    rewrite (proj2 (Z.eqb_eq height INT_MAX) Hmax), andb_true_r.
    destruct (_ <=? _) eqn:Hle; [discriminate |].
    apply Z.leb_gt in Hle.
    replace (Z.to_nat (height - _ + 1)) with 0%nat by lia.
    cbn [lwma_loop]. intros H. apply Some_inj in H. subst v. cbn. lia.
  - unfold INT_MAX in Hmax.
    rewrite (int32_small (height - N + 1)) by in_range.
    destruct (_ && _); [discriminate |].
    replace (height - (height - N + 1) + 1) with N by lia.
    intros Hl.
    apply (lwma_loop_bounded (Z.to_nat N) _ _ _ Hl); cbn [weight]; try lia.
    unfold bounded_vars. cbn. change (tri 0) with 0. lia.
Qed.

End BoundedSum.

(** C9, as the code has it. The two revisions of
    [LwmaCalculateNextWorkRequired] return the same result whenever the
    product [N * (N + 1) * T] computed by the first stays within [int64_t]
    and the weighted solve-time sum left in the [int] is not negative. This
    is the case for every chain with 32-bit block times and a last height
    within [int], and all parameters with a positive spacing, a non-negative
    window and [3 * T * N * (N + 1) < 2^31]. *)
Theorem Lwma_revisions_agree pindexLast params :
  let T := nPowTargetSpacing params in
  let N := nZawyLwmaAveragingWindow params in
  (in_int64 (int64 (N * int64 (N + 1)) * T) ->
   (forall v, lwma_window pindexLast params (lwma_k N T) = Some v ->
              0 <= sumWeightedSolvetimes v) ->
   LwmaCalculateNextWorkRequired pindexLast params
   = Part000.LwmaCalculateNextWorkRequired pindexLast params) /\
  (0 < T -> 0 <= N -> 3 * T * N * (N + 1) < 2 ^ 31 ->
   0 <= nHeight pindexLast < 2 ^ 31 ->
   (forall b, In b (chain_blocks pindexLast) -> 0 <= nTime b < 2 ^ 32) ->
   LwmaCalculateNextWorkRequired pindexLast params
   = Part000.LwmaCalculateNextWorkRequired pindexLast params).
Proof.
  intros T N. split.
  - apply revisions_agree_general.
  - intros HT HN Hfit Hh Htimes.
    pose proof (tri_double N) as Hd.
    assert (Hsum : 6 * T * tri N < 2 ^ 31) by nia.
    assert (HNs : N < 2 ^ 31) by (apply (window_small T N HT HN Hsum)).
    assert (HNN : 0 <= N * (N + 1) <= 3 * T * N * (N + 1)) by nia.
    apply revisions_agree_general; fold T N.
    + rewrite (int64_small (N + 1)) by in_range.
      rewrite (int64_small (N * (N + 1))) by in_range.
      unfold in_int64. nia.
    + intros v. unfold lwma_window. fold T N.
      set (height := nHeight pindexLast) in *.
      rewrite (int64_small (height - N)) by in_range.
      rewrite (int32_small (height - N)) by in_range.
      destruct (GetAncestor pindexLast (height - N)) as [b0 |] eqn:Hb0;
        [| discriminate].
      cbn [bind]. intros Hfor.
      assert (HNh : N <= height).
      { unfold GetAncestor in Hb0.
        destruct (Z_lt_le_dec (height - N) 0) as [Hneg | Hok]; [| lia].
        apply Z.ltb_lt in Hneg. rewrite Hneg, orb_true_r in Hb0. discriminate. }
      rewrite <- (int64_small (height - N)) in Hfor at 1
        by in_range.
      apply (lwma_for_sum_nonneg pindexLast T N _ HT HN Hsum Htimes _ b0 v Hh
               HNh eq_refl (GetAncestor_in_chain _ _ _ Hb0) Hfor).
Qed.

(** The steady chain of three blocks, window two, spacing 600. *)
Lemma Lwma_revisions_agree_witness :
  LwmaCalculateNextWorkRequired steady_chain scenario_params
  = Part000.LwmaCalculateNextWorkRequired steady_chain scenario_params.
Proof.
  refine (proj2 (Lwma_revisions_agree steady_chain scenario_params) _ _ _ _ _).
  - reflexivity.
  - vm_compute. congruence.
  - reflexivity.
  - vm_compute. split; congruence.
  - intros b [<- | [<- | [<- | []]]]; vm_compute; split; congruence.
Defined.

(** C9 as stated fails when the weighted solve-time sum leaves the [int].
    With a spacing of [2^29] seconds and a window of one block, a block found
    [2^31 + 5] seconds after its predecessor gives the sum [2^31 + 5], which
    the [int] holds as [-2147483643]. The first revision multiplies the
    average target by that [int] converted to 32 unsigned bits, the other
    converts it to 64 unsigned bits first: the results are [0x05020000] and
    [0x0903ffff]. *)
Lemma Lwma_revisions_differ_counterexample :
  LwmaCalculateNextWorkRequired slow_chain long_spacing_params = Some 84017152 /\
  Part000.LwmaCalculateNextWorkRequired slow_chain long_spacing_params
  = Some 151257087 /\
  lwma_k 1 536870912 = Part000.lwma_k 1 536870912 /\
  (exists v, lwma_window slow_chain long_spacing_params (lwma_k 1 536870912)
             = Some v /\ sumWeightedSolvetimes v = -2147483643) /\
  LwmaCalculateNextWorkRequired slow_chain long_spacing_params
  <> Part000.LwmaCalculateNextWorkRequired slow_chain long_spacing_params.
Proof.
  split; [vm_compute; reflexivity |].
  split; [vm_compute; reflexivity |].
  split; [vm_compute; reflexivity |].
  split.
  - eexists. split; vm_compute; reflexivity.
  - vm_compute. congruence.
Qed.

(** The same at ten-minute spacing, with a window of 1093 blocks found one
    hour apart: the sum is 2152335600, above [2^31 - 1]. *)
Remark Lwma_revisions_differ_wide_window :
  LwmaCalculateNextWorkRequired hourly_chain wide_window_params = Some 470155257 /\
  Part000.LwmaCalculateNextWorkRequired hourly_chain wide_window_params
  = Some 503382015.
Proof.
  split; vm_compute; reflexivity.
Qed.

(** * Further properties of pow.cpp *)

(** ** Ancestor lookup on linked chains *)

Lemma linked_height_nonneg b : linked b -> 0 <= nHeight b.
Proof. destruct b as [h t c [p |]]; cbn; lia. Qed.

Lemma walk_prev_linked n :
  forall b, linked b -> Z.of_nat n <= nHeight b ->
  exists a, walk_prev n b = Some a /\ nHeight a = nHeight b - Z.of_nat n /\ linked a.
Proof.
  induction n as [| n IH]; intros b Hl Hn.
  - exists b. cbn [walk_prev]. repeat split; [lia | exact Hl].
  - destruct b as [h t c [p |]]; cbn in Hl, Hn.
    + destruct Hl as (Hpos & Hp & Hlp).
      destruct (IH p Hlp ltac:(lia)) as (a & Ha & Hh & Hla).
      exists a. cbn. repeat split; [exact Ha | lia | exact Hla].
    + lia.
Qed.

Lemma GetAncestor_linked b height :
  linked b -> 0 <= height <= nHeight b ->
  exists a, GetAncestor b height = Some a /\ nHeight a = height.
Proof.
  intros Hl Hh. unfold GetAncestor.
  rewrite (proj2 (Z.ltb_ge height 0)) by lia.
  rewrite Z.gtb_ltb, (proj2 (Z.ltb_ge (nHeight b) height)) by lia.
  cbn [orb].
  destruct (walk_prev_linked (Z.to_nat (nHeight b - height)) b Hl ltac:(lia))
    as (a & Ha & Hha & _).
  exists a. split; [exact Ha | lia].
Qed.

(** ** When the functions return *)

Lemma rem_zero_ge a b : 0 < a -> 0 < b -> Z.rem a b = 0 -> b <= a.
Proof.
  intros Ha Hb Hr. rewrite Z.rem_mod_nonneg in Hr by lia.
  pose proof (Z.div_mod a b ltac:(lia)) as Hd. rewrite Hr in Hd.
  assert (0 < a / b) by nia. nia.
Qed.

Lemma DifficultyAdjustmentInterval_sane params :
  sane_params params ->
  exists di, DifficultyAdjustmentInterval params = Some di /\ 1 <= di < 2 ^ 31.
Proof.
  intros (Hsp & Hts & _).
  unfold DifficultyAdjustmentInterval, c_div.
  rewrite (proj2 (Z.eqb_neq _ 0)) by lia. cbn [bind].
  rewrite Z.quot_div_nonneg by lia.
  assert (Hq : 1 <= nPowTargetTimespan params / nPowTargetSpacing params < 2 ^ 31).
  { split.
    - apply Z.div_le_lower_bound; lia.
    - apply Z.div_lt_upper_bound; nia. }
  eexists. split; [reflexivity |].
  rewrite int64_small by in_range. exact Hq.
Qed.

Lemma CalculateNextWorkRequired_returns pindexLast nFirstBlockTime params :
  sane_params params ->
  exists r, CalculateNextWorkRequired pindexLast nFirstBlockTime params = Some r.
Proof.
  intros (Hsp & Hts & H72 & _).
  unfold CalculateNextWorkRequired.
  destruct (fPowNoRetargeting params); [eexists; reflexivity |].
  unfold retarget_bnNew, retarget_timespan.
  destruct (int32 (nHeight pindexLast + 1) >? BCDHeight params).
  - rewrite (int64_small (72 * _)) by in_range.
    rewrite (int32_small (72 * _)) by in_range.
    unfold of_uint64. rewrite uint64_small by lia.
    unfold div. rewrite (proj2 (Z.eqb_neq _ 0)) by lia.
    cbn [bind]. eexists; reflexivity.
  - rewrite (int32_small (nPowTargetTimespan params)) by in_range.
    unfold of_uint64. rewrite uint64_small by lia.
    unfold div. rewrite (proj2 (Z.eqb_neq _ 0)) by lia.
    cbn [bind]. eexists; reflexivity.
Qed.

Lemma BCDGetNextWorkRequired_returns_linked pindexLast pblock params :
  sane_params params -> linked pindexLast -> nHeight pindexLast + 1 < 2 ^ 31 ->
  exists r, BCDGetNextWorkRequired pindexLast pblock params = Some r.
Proof.
  intros Hsane Hl Hh.
  pose proof (linked_height_nonneg _ Hl) as H0.
  destruct (DifficultyAdjustmentInterval_sane params Hsane) as (di & Hdi & Hdr).
  pose proof Hsane as (Hsp & Hts & H72 & HB & _).
  unfold BCDGetNextWorkRequired, legacy_height_interval.
  rewrite (int32_small (nHeight pindexLast + 1)) by in_range.
  assert (Hwalk : forall l, exists r, last_non_special params l pindexLast = Some r).
  { intros l.
    destruct (last_non_special_first_stop params di l Hdi ltac:(lia) pindexLast)
      as (n & b & _ & Hr & _).
    eexists; exact Hr. }
  assert (Hoff : exists r,
    (if fPowAllowMinDifficultyBlocks params
     then if gap_exceeded pindexLast pblock params
          then Some (GetCompact (UintToArith256 (powLimit params)))
          else last_non_special params
                 (GetCompact (UintToArith256 (powLimit params))) pindexLast
     else Some (nBits pindexLast)) = Some r).
  { destruct (fPowAllowMinDifficultyBlocks params); [| eexists; reflexivity].
    destruct (gap_exceeded pindexLast pblock params); [eexists; reflexivity |].
    apply Hwalk. }
  destruct (nHeight pindexLast + 1 >? BCDHeight params) eqn:Hfork.
  - apply Z.gtb_gt in Hfork. cbn [bind].
    rewrite (int32_small (_ - _)) by in_range.
    unfold c_rem. change (72 =? 0) with false. cbn [bind].
    destruct (Z.rem _ 72 =? 0) eqn:Hrem; cbn [negb]; [| exact Hoff].
    apply Z.eqb_eq in Hrem.
    pose proof (rem_zero_ge (nHeight pindexLast + 1 - BCDHeight params) 72
                  ltac:(lia) ltac:(lia) Hrem).
    change (int32 (72 - 1)) with 71.
    rewrite (int32_small (_ - 71)) by in_range.
    rewrite (proj2 (Z.ltb_ge _ 0)) by lia.
    destruct (GetAncestor_linked pindexLast (nHeight pindexLast - 71) Hl
                ltac:(lia)) as (a & Ha & _).
    rewrite Ha. cbn [bind]. apply CalculateNextWorkRequired_returns, Hsane.
  - pose proof (Zgt_cases (nHeight pindexLast + 1) (BCDHeight params)) as Hc.
    rewrite Hfork in Hc.
    rewrite Hdi. cbn [bind].
    rewrite (int32_small di) by in_range.
    unfold c_rem. rewrite (proj2 (Z.eqb_neq di 0)) by lia. cbn [bind].
    destruct (Z.rem _ di =? 0) eqn:Hrem; cbn [negb]; [| exact Hoff].
    apply Z.eqb_eq in Hrem.
    pose proof (rem_zero_ge (nHeight pindexLast + 1) di
                  ltac:(lia) ltac:(lia) Hrem).
    rewrite (int32_small (di - 1)) by in_range.
    rewrite (int32_small (_ - (di - 1))) by in_range.
    rewrite (proj2 (Z.ltb_ge _ 0)) by lia.
    destruct (GetAncestor_linked pindexLast (nHeight pindexLast - (di - 1)) Hl
                ltac:(lia)) as (a & Ha & _).
    rewrite Ha. cbn [bind]. apply CalculateNextWorkRequired_returns, Hsane.
Qed.

(** ** The LWMA computation through its loop *)

Lemma Lwma_via_window pindexLast params :
  LwmaCalculateNextWorkRequired pindexLast params
  = if fPowNoRetargeting params then Some (nBits pindexLast)
    else
      let N := nZawyLwmaAveragingWindow params in
      let powLimit := UintToArith256 (BCDBeginPowLimit params) in
      if nHeight pindexLast <? N then Some (GetCompact powLimit)
      else
        v <- lwma_window pindexLast params (lwma_k N (nPowTargetSpacing params)) ;;
        let nextTarget := mul_u32 (avgTarget v) (sumWeightedSolvetimes v) in
        Some (GetCompact (if nextTarget >? powLimit then powLimit else nextTarget)).
Proof.
  unfold LwmaCalculateNextWorkRequired, lwma_window.
  destruct (fPowNoRetargeting params); [reflexivity |]. cbv zeta.
  destruct (_ <? _); [reflexivity |].
  destruct (GetAncestor pindexLast _); reflexivity.
Qed.

Lemma Part000_via_window pindexLast params :
  Part000.LwmaCalculateNextWorkRequired pindexLast params
  = if fPowNoRetargeting params then Some (nBits pindexLast)
    else
      let N := nZawyLwmaAveragingWindow params in
      let powLimit := UintToArith256 (BCDBeginPowLimit params) in
      if nHeight pindexLast <? N then Some (GetCompact powLimit)
      else
        v <- lwma_window pindexLast params
               (Part000.lwma_k N (nPowTargetSpacing params)) ;;
        let nextTarget := mul (of_uint64 (sumWeightedSolvetimes v)) (avgTarget v) in
        Some (GetCompact (if nextTarget >? powLimit then powLimit else nextTarget)).
Proof.
  unfold Part000.LwmaCalculateNextWorkRequired, lwma_window.
  destruct (fPowNoRetargeting params); [reflexivity |]. cbv zeta.
  destruct (_ <? _); [reflexivity |].
  destruct (GetAncestor pindexLast _); reflexivity.
Qed.

(** ** Runs that return *)

Lemma lwma_loop_returns pindexLast T kN n :
  of_uint64 kN <> 0 ->
  forall i v,
  (forall j, i <= j < i + Z.of_nat n -> exists b, GetAncestor pindexLast j = Some b) ->
  exists v', lwma_loop pindexLast T kN n i v = Some v'.
Proof.
  intros Hk. induction n as [| n IH]; intros i v Hanc.
  - eexists; reflexivity.
  - cbn [lwma_loop]. unfold lwma_body.
    destruct (Hanc i ltac:(lia)) as (b & ->). cbn [bind].
    unfold div. rewrite (proj2 (Z.eqb_neq _ 0) Hk). cbn [bind].
    apply IH. intros j Hj. apply Hanc. lia.
Qed.

Lemma lwma_window_returns pindexLast params k :
  linked pindexLast ->
  0 <= nZawyLwmaAveragingWindow params <= nHeight pindexLast ->
  nHeight pindexLast < INT_MAX ->
  (1 <= nZawyLwmaAveragingWindow params ->
   of_uint64 (int64 (k * nZawyLwmaAveragingWindow params)) <> 0) ->
  exists v, lwma_window pindexLast params k = Some v.
Proof.
  intros Hl HN Hh Hk. unfold INT_MAX in Hh. unfold lwma_window.
  set (N := nZawyLwmaAveragingWindow params) in *.
  set (height := nHeight pindexLast) in *.
  rewrite (int64_small (height - N)) by in_range.
  rewrite (int32_small (height - N)) by in_range.
  destruct (GetAncestor_linked pindexLast (height - N) Hl ltac:(lia))
    as (b0 & Hb0 & _).
  rewrite Hb0. cbn [bind].
  rewrite (int64_small (height - N + 1)) by in_range.
  rewrite (int32_small (height - N + 1)) by in_range.
  unfold lwma_for.
  rewrite (proj2 (Z.eqb_neq height INT_MAX)) by (unfold INT_MAX; lia).
  rewrite andb_false_r.
  replace (height - (height - N + 1) + 1) with N by lia.
  destruct (Z.eq_dec N 0) as [-> | HN0].
  - eexists; reflexivity.
  - apply lwma_loop_returns; [apply Hk; lia |].
    intros j Hj. rewrite Z2Nat.id in Hj by lia.
    destruct (GetAncestor_linked pindexLast j Hl ltac:(lia)) as (b & Hb & _).
    eexists; exact Hb.
Qed.

Lemma sane_window_divisor params :
  sane_params params ->
  let N := nZawyLwmaAveragingWindow params in
  let T := nPowTargetSpacing params in
  lwma_k N T = T * tri N /\ Part000.lwma_k N T = T * tri N /\
  (1 <= N -> of_uint64 (int64 (T * tri N * N)) <> 0).
Proof.
  intros (HT & _ & _ & _ & HN & Hfit) N T. fold N T in HT, HN, Hfit.
  pose proof (tri_double N) as Hd.
  assert (Hprod : N * (N + 1) * T < 2 ^ 63).
  { destruct (Z.eq_dec N 0) as [-> | ]; [lia | nia]. }
  assert (Hk : lwma_k N T = T * tri N) by (apply lwma_k_exact; lia).
  split; [exact Hk |]. split.
  - rewrite <- Hk. symmetry. apply lwma_k_agree.
    rewrite (int64_small (N + 1)) by (cbv [in_int64]; nia).
    rewrite (int64_small (N * (N + 1))) by (cbv [in_int64]; nia).
    cbv [in_int64]. nia.
  - intros H1.
    assert (0 < T * tri N * N < 2 ^ 63) by nia.
    rewrite int64_small by in_range.
    unfold of_uint64. rewrite uint64_small by lia. lia.
Qed.

Lemma Lwma_returns_linked pindexLast params :
  sane_params params -> linked pindexLast -> nHeight pindexLast < INT_MAX ->
  (exists r, LwmaCalculateNextWorkRequired pindexLast params = Some r) /\
  (exists r, Part000.LwmaCalculateNextWorkRequired pindexLast params = Some r).
Proof.
  intros Hsane Hl Hh.
  destruct (sane_window_divisor params Hsane) as (Hk1 & Hk2 & Hnz).
  pose proof Hsane as (_ & _ & _ & _ & HN & _).
  rewrite Lwma_via_window, Part000_via_window. cbv zeta.
  rewrite Hk1, Hk2.
  destruct (fPowNoRetargeting params); [split; eexists; reflexivity |].
  destruct (_ <? _) eqn:Hlt; [split; eexists; reflexivity |].
  apply Z.ltb_ge in Hlt.
  destruct (lwma_window_returns pindexLast params
              (nPowTargetSpacing params * tri (nZawyLwmaAveragingWindow params))
              Hl ltac:(lia) Hh Hnz) as (v & ->).
  cbn [bind]. split; eexists; reflexivity.
Qed.

(** X1. On a linked chain whose next height fits an [int], and with
    parameters in range, [GetNextWorkRequired] returns a value: neither
    assertion of the legacy retarget fails, no ancestor lookup comes back
    null, and no division is by zero. *)
Theorem GetNextWorkRequired_returns pindexLast pblock params :
  sane_params params -> linked pindexLast -> nHeight pindexLast + 1 < 2 ^ 31 ->
  exists r, GetNextWorkRequired pindexLast pblock params = Some r.
Proof.
  intros Hsane Hl Hh. unfold GetNextWorkRequired.
  destruct (_ =? _); [eexists; reflexivity |].
  destruct (_ =? _); [eexists; reflexivity |].
  destruct (_ <? _).
  - apply BCDGetNextWorkRequired_returns_linked; assumption.
  - unfold LwmaGetNextWorkRequired.
    destruct (_ && _); [eexists; reflexivity |].
    apply Lwma_returns_linked; [assumption | assumption |].
    unfold INT_MAX. lia.
Qed.

Lemma GetNextWorkRequired_returns_witness :
  exists r, GetNextWorkRequired scenario_chain (BlockHeader 120000) scenario_params
            = Some r.
Proof.
  apply (GetNextWorkRequired_returns scenario_chain (BlockHeader 120000)
           scenario_params).
  - vm_compute. repeat split; congruence.
  - vm_compute. repeat split; congruence.
  - vm_compute. congruence.
Defined.

(** X2. The two revisions of [LwmaCalculateNextWorkRequired] fail on the same
    inputs whenever their constants [k] agree, and on a linked chain with
    parameters in range both return a value. *)
Theorem Lwma_revisions_fail_together pindexLast params :
  let T := nPowTargetSpacing params in
  let N := nZawyLwmaAveragingWindow params in
  (in_int64 (int64 (N * int64 (N + 1)) * T) ->
   (LwmaCalculateNextWorkRequired pindexLast params = None <->
    Part000.LwmaCalculateNextWorkRequired pindexLast params = None)) /\
  (sane_params params -> linked pindexLast -> nHeight pindexLast < INT_MAX ->
   (exists r, LwmaCalculateNextWorkRequired pindexLast params = Some r) /\
   (exists r, Part000.LwmaCalculateNextWorkRequired pindexLast params = Some r)).
Proof.
  intros T N. split.
  - intros Hfit. rewrite Lwma_via_window, Part000_via_window. cbv zeta.
    fold T N. rewrite <- (lwma_k_agree N T Hfit).
    destruct (fPowNoRetargeting params); [split; discriminate |].
    destruct (_ <? _); [split; discriminate |].
    destruct (lwma_window pindexLast params (lwma_k N T)); cbn [bind];
      split; (discriminate || reflexivity).
  - apply Lwma_returns_linked.
Qed.

Lemma Lwma_revisions_fail_together_witness :
  (exists r, LwmaCalculateNextWorkRequired scenario_chain scenario_params = Some r) /\
  (exists r, Part000.LwmaCalculateNextWorkRequired scenario_chain scenario_params
             = Some r).
Proof.
  apply (proj2 (Lwma_revisions_fail_together scenario_chain scenario_params)).
  - vm_compute. repeat split; congruence.
  - vm_compute. repeat split; congruence.
  - vm_compute. congruence.
Defined.

(** X3. Past the bootstrap, when the divisor [k * N] is zero as a 64-bit
    value, as it is for a spacing of zero, the LWMA retarget has no result:
    the first pass of the loop divides by zero, unless an ancestor lookup
    has failed before. *)
Theorem Lwma_zero_divisor pindexLast params :
  let T := nPowTargetSpacing params in
  let N := nZawyLwmaAveragingWindow params in
  fPowNoRetargeting params = false ->
  1 <= N <= nHeight pindexLast -> nHeight pindexLast < INT_MAX ->
  of_uint64 (int64 (lwma_k N T * N)) = 0 ->
  LwmaCalculateNextWorkRequired pindexLast params = None.
Proof.
  intros T N Hre HN Hh Hz. unfold INT_MAX in Hh.
  rewrite Lwma_via_window. cbv zeta. fold T N. rewrite Hre.
  rewrite (proj2 (Z.ltb_ge _ _)) by lia.
  unfold lwma_window. fold T N.
  set (height := nHeight pindexLast) in *.
  destruct (GetAncestor pindexLast _) as [b0 |]; [| reflexivity]. cbn [bind].
  rewrite (int64_small (height - N)) by in_range.
  rewrite (int64_small (height - N + 1)) by in_range.
  rewrite (int32_small (height - N + 1)) by in_range.
  unfold lwma_for.
  rewrite (proj2 (Z.eqb_neq height INT_MAX)) by (unfold INT_MAX; lia).
  rewrite andb_false_r.
  replace (height - (height - N + 1) + 1) with N by lia.
  destruct (Z.to_nat N) as [| n] eqn:Hn; [lia |].
  cbn [lwma_loop]. unfold lwma_body.
  destruct (GetAncestor pindexLast _) as [b |]; [| reflexivity]. cbn [bind].
  unfold div. rewrite Hz. reflexivity.
Qed.

(** X4. A window of zero blocks gives the zero target, in both revisions,
    which no hash satisfies; a negative window makes the first ancestor
    lookup fail, so that there is no result. *)
Theorem Lwma_degenerate_window pindexLast params :
  let N := nZawyLwmaAveragingWindow params in
  fPowNoRetargeting params = false ->
  0 <= nHeight pindexLast < INT_MAX ->
  (N = 0 ->
   LwmaCalculateNextWorkRequired pindexLast params = Some 0 /\
   Part000.LwmaCalculateNextWorkRequired pindexLast params = Some 0 /\
   forall hash, CheckProofOfWork hash 0 params = false) /\
  (- 2 ^ 31 <= N < 0 ->
   LwmaCalculateNextWorkRequired pindexLast params = None).
Proof.
  intros N Hre Hh. unfold INT_MAX in Hh.
  set (height := nHeight pindexLast) in *.
  pose proof (u256_range (BCDBeginPowLimit params)) as HL.
  split.
  - intros HN.
    assert (Hw : forall k, lwma_window pindexLast params k
                           = Some (mkVars (GetBlockTime pindexLast) 0 0 0)).
    { intros k. unfold lwma_window. fold N height. rewrite HN, Z.sub_0_r.
      rewrite (int64_small height) by in_range.
      rewrite (int32_small height) by in_range.
      unfold GetAncestor. fold height.
      rewrite Z.gtb_ltb, Z.ltb_irrefl, (proj2 (Z.ltb_ge height 0)) by lia.
      cbn [orb]. rewrite Z.sub_diag. cbn [Z.to_nat walk_prev bind].
      rewrite (int64_small (height + 1)) by in_range.
      rewrite (int32_small (height + 1)) by in_range.
      unfold lwma_for.
      rewrite (proj2 (Z.leb_gt (height + 1) height)) by lia. cbn [andb].
      replace (height - (height + 1) + 1) with 0 by lia. reflexivity. }
    rewrite Lwma_via_window, Part000_via_window. cbv zeta. fold N.
    rewrite Hre, HN, !Hw. fold height.
    rewrite (proj2 (Z.ltb_ge height 0)) by lia. cbn [bind avgTarget
      sumWeightedSolvetimes].
    change (mul_u32 0 0) with 0. change (mul (of_uint64 0) 0) with 0.
    unfold UintToArith256.
    rewrite Z.gtb_ltb, (proj2 (Z.ltb_ge (u256 (BCDBeginPowLimit params)) 0))
      by lia.
    change (GetCompact 0) with 0.
    split; [reflexivity | split; [reflexivity | intros hash; reflexivity]].
  - intros HN.
    rewrite Lwma_via_window. cbv zeta. fold N. rewrite Hre. fold height.
    rewrite (proj2 (Z.ltb_ge height N)) by lia.
    unfold lwma_window. fold N height.
    rewrite (int64_small (height - N)) by in_range.
    assert (Hnone : GetAncestor pindexLast (int32 (height - N)) = None).
    { unfold GetAncestor. fold height.
      destruct (Z_lt_le_dec (height - N) (2 ^ 31)) as [Hs | Hb].
      - rewrite int32_small by in_range.
        rewrite (proj2 (Z.gtb_gt _ _)) by lia. reflexivity.
      - assert (Hw : int32 (height - N) = height - N - 2 ^ 32).
        { unfold int32, wrap_signed. change (2 ^ (32 - 1)) with (2 ^ 31).
          rewrite <- (Z.mod_unique (height - N + 2 ^ 31) (2 ^ 32) 1
                        (height - N - 2 ^ 31)) by lia. lia. }
        rewrite Hw. rewrite (proj2 (Z.ltb_lt _ 0)) by lia.
        rewrite orb_true_r. reflexivity. }
    rewrite Hnone. reflexivity.
Qed.

(** ** The LWMA result against the targets of the window *)

Lemma u256_le x : 0 <= x -> 0 <= u256 x <= x.
Proof.
  intros Hx. unfold u256. split.
  - apply Z.mod_pos_bound. lia.
  - apply Z.mod_le; lia.
Qed.

Lemma lwma_body_avg pindexLast T kN M i v v' w :
  0 < kN < 2 ^ 64 ->
  lwma_body pindexLast T kN i v = Some v' ->
  (forall b, GetAncestor pindexLast i = Some b -> SetCompact (nBits b) <= M) ->
  0 <= avgTarget v -> avgTarget v * kN <= w * M ->
  0 <= avgTarget v' /\ avgTarget v' * kN <= (w + 1) * M.
Proof.
  intros Hk Hb HM H0 Hinv. unfold lwma_body in Hb.
  destruct (GetAncestor pindexLast i) as [b |]; [| discriminate].
  cbn [bind] in Hb. specialize (HM b eq_refl).
  unfold of_uint64 in Hb. rewrite uint64_small in Hb by lia.
  unfold div in Hb. rewrite (proj2 (Z.eqb_neq kN 0)) in Hb by lia.
  cbn [bind] in Hb. apply Some_inj in Hb. subst v'. cbn [avgTarget].
  pose proof (SetCompact_nonneg (nBits b)) as Ht.
  set (t := SetCompact (nBits b)) in *.
  assert (Hq : 0 <= t / kN) by (apply Z.div_pos; lia).
  pose proof (Z.mul_div_le t kN ltac:(lia)) as Hqk.
  unfold add.
  pose proof (u256_le (avgTarget v + t / kN) ltac:(lia)) as Hu.
  split; [lia | nia].
Qed.

Lemma lwma_loop_window_bounds pindexLast T N kN M :
  0 < T -> 0 <= N -> 6 * T * tri N < 2 ^ 31 ->
  (forall b, In b (chain_blocks pindexLast) -> 0 <= nTime b < 2 ^ 32) ->
  0 < kN < 2 ^ 64 ->
  forall n i v v',
  lwma_loop pindexLast T kN n i v = Some v' ->
  0 <= weight v -> weight v + Z.of_nat n <= N ->
  bounded_vars T v ->
  0 <= avgTarget v -> avgTarget v * kN <= weight v * M ->
  (forall j b, i <= j < i + Z.of_nat n -> GetAncestor pindexLast j = Some b ->
               SetCompact (nBits b) <= M) ->
  weight v' = weight v + Z.of_nat n /\ bounded_vars T v' /\
  0 <= avgTarget v' /\ avgTarget v' * kN <= weight v' * M.
Proof.
  intros HT HN Hfit Htimes Hk.
  induction n as [| n IH]; intros i v v' Hl Hw Hn Hbv Ha0 Ha HM;
    cbn [lwma_loop] in Hl.
  - apply Some_inj in Hl. subst v'. rewrite Z.add_0_r. auto.
  - destruct (lwma_body pindexLast T kN i v) as [v1 |] eqn:Hb; [| discriminate].
    cbn [bind] in Hl.
    destruct (lwma_body_bounded pindexLast T N kN HT HN Hfit Htimes i v v1 Hb
                ltac:(lia) Hbv) as [Hw1 Hbv1].
    destruct (lwma_body_avg pindexLast T kN M i v v1 (weight v) Hk Hb
                ltac:(intros b Hb'; apply (HM i b); [lia | exact Hb'])
                Ha0 Ha) as [Ha1 Hinv1].
    rewrite <- Hw1 in Hinv1.
    destruct (IH (i + 1) v1 v' Hl ltac:(lia) ltac:(lia) Hbv1 Ha1 Hinv1
                ltac:(intros j b Hj; apply HM; lia))
      as (Hwf & Hbf & Haf & Hinvf).
    split; [lia | split; [exact Hbf | split; [exact Haf | exact Hinvf]]].
Qed.

Lemma lwma_window_bounds pindexLast params M v :
  let T := nPowTargetSpacing params in
  let N := nZawyLwmaAveragingWindow params in
  let height := nHeight pindexLast in
  0 < T -> 1 <= N <= height -> height < INT_MAX ->
  6 * T * tri N < 2 ^ 31 ->
  (forall b, In b (chain_blocks pindexLast) -> 0 <= nTime b < 2 ^ 32) ->
  (forall i b, height - N < i <= height -> GetAncestor pindexLast i = Some b ->
               SetCompact (nBits b) <= M) ->
  lwma_window pindexLast params (T * tri N) = Some v ->
  weight v = N /\ bounded_vars T v /\
  0 <= avgTarget v /\ avgTarget v * (T * tri N * N) <= N * M.
Proof.
  intros T N height HT HN Hh Hfit Htimes HM. unfold INT_MAX in Hh.
  pose proof (tri_double N) as Hd.
  assert (Htri : 1 <= tri N) by nia.
  assert (HN31 : N < 2 ^ 31) by nia.
  assert (HkN : 0 < T * tri N * N < 2 ^ 63) by nia.
  unfold lwma_window. fold T N height.
  rewrite (int64_small (height - N)) by in_range.
  rewrite (int32_small (height - N)) by in_range.
  destruct (GetAncestor pindexLast (height - N)) as [b0 |] eqn:Hb0;
    [| discriminate].
  cbn [bind].
  rewrite (int64_small (height - N + 1)) by in_range.
  rewrite (int32_small (height - N + 1)) by in_range.
  rewrite (int64_small (T * tri N * N)) by in_range.
  unfold lwma_for.
  rewrite (proj2 (Z.eqb_neq height INT_MAX)) by (unfold INT_MAX; lia).
  rewrite andb_false_r.
  replace (height - (height - N + 1) + 1) with N by lia.
  intros Hl.
  pose proof (Htimes b0 (GetAncestor_in_chain _ _ _ Hb0)) as Ht0.
  assert (Hinit : bounded_vars T (mkVars (GetBlockTime b0) 0 0 0)).
  { unfold bounded_vars. cbn. change (tri 0) with 0.
    fold (GetBlockTime b0) in Ht0. lia. }
  assert (HMw : forall j b,
    height - N + 1 <= j < height - N + 1 + Z.of_nat (Z.to_nat N) ->
    GetAncestor pindexLast j = Some b -> SetCompact (nBits b) <= M).
  { intros j b Hj. apply HM. lia. }
  destruct (lwma_loop_window_bounds pindexLast T N (T * tri N * N) M
              HT ltac:(lia) Hfit Htimes ltac:(lia)
              (Z.to_nat N) (height - N + 1) _ v Hl
              ltac:(cbn; lia) ltac:(cbn; lia) Hinit
              ltac:(cbn; lia) ltac:(cbn; lia) HMw)
    as (Hw & Hbv & Ha & Hinv).
  cbn [weight] in Hw. rewrite Z2Nat.id in Hw by lia.
  rewrite Hw in Hinv.
  split; [lia | split; [exact Hbv | split; [exact Ha | exact Hinv]]].
Qed.

(** X5. Whatever the order of the block times, each solve time the loop
    counts lies between one second and six spacings, so the LWMA result, in
    both revisions, decodes to at most six times the largest target of the
    [N] blocks of the window. *)
Theorem Lwma_sixfold_bound pindexLast params M :
  let T := nPowTargetSpacing params in
  let N := nZawyLwmaAveragingWindow params in
  let height := nHeight pindexLast in
  0 < T -> 1 <= N <= height -> height < INT_MAX ->
  3 * T * N * (N + 1) < 2 ^ 31 ->
  (forall b, In b (chain_blocks pindexLast) -> 0 <= nTime b < 2 ^ 32) ->
  (forall i b, height - N < i <= height -> GetAncestor pindexLast i = Some b ->
               SetCompact (nBits b) <= M) ->
  (forall r, LwmaCalculateNextWorkRequired pindexLast params = Some r ->
             SetCompact r <= 6 * M) /\
  (forall r, Part000.LwmaCalculateNextWorkRequired pindexLast params = Some r ->
             SetCompact r <= 6 * M).
Proof.
  intros T N height HT HN Hh Hfit Htimes HM.
  pose proof (tri_double N) as Hd.
  assert (Hsum : 6 * T * tri N < 2 ^ 31) by nia.
  assert (Htri : 1 <= tri N) by nia.
  assert (Hprod : N * (N + 1) * T < 2 ^ 63) by nia.
  assert (Hk1 : lwma_k N T = T * tri N) by (apply lwma_k_exact; lia).
  assert (Hk2 : Part000.lwma_k N T = T * tri N).
  { rewrite <- Hk1. symmetry. apply lwma_k_agree.
    rewrite (int64_small (N + 1)) by (cbv [in_int64]; nia).
    rewrite (int64_small (N * (N + 1))) by (cbv [in_int64]; nia).
    cbv [in_int64]. nia. }
  assert (Hlast : SetCompact (nBits pindexLast) <= M).
  { apply (HM height pindexLast); [lia |].
    unfold GetAncestor. fold height.
    rewrite Z.gtb_ltb, Z.ltb_irrefl, (proj2 (Z.ltb_ge height 0)) by lia.
    cbn [orb]. rewrite Z.sub_diag. reflexivity. }
  assert (HM0 : 0 <= M)
    by (pose proof (SetCompact_nonneg (nBits pindexLast)); lia).
  pose proof (u256_range (BCDBeginPowLimit params)) as HL.
  fold (UintToArith256 (BCDBeginPowLimit params)) in HL.
  assert (Hfinal : forall v x,
    lwma_window pindexLast params (T * tri N) = Some v ->
    x = avgTarget v * sumWeightedSolvetimes v ->
    SetCompact (GetCompact
      (if u256 x >? UintToArith256 (BCDBeginPowLimit params)
       then UintToArith256 (BCDBeginPowLimit params) else u256 x)) <= 6 * M).
  { intros v x Hv ->.
    destruct (lwma_window_bounds pindexLast params M v HT HN Hh Hsum Htimes HM Hv)
      as (Hw & [Hs _] & Ha & Hinv).
    rewrite Hw in Hs. fold T N in Hs, Hinv.
    assert (Hak : avgTarget v * (T * tri N) <= M) by nia.
    assert (Hx : 0 <= avgTarget v * sumWeightedSolvetimes v <= 6 * M).
    { split; [apply Z.mul_nonneg_nonneg; lia |].
      apply Z.le_trans with (avgTarget v * (6 * (T * tri N))).
      - apply Z.mul_le_mono_nonneg_l; lia.
      - lia. }
    pose proof (u256_le _ (proj1 Hx)) as Hu.
    pose proof (u256_range (avgTarget v * sumWeightedSolvetimes v)) as Hur.
    set (y := u256 (avgTarget v * sumWeightedSolvetimes v)) in *.
    destruct (clamp_le_limit y (UintToArith256 (BCDBeginPowLimit params))
                ltac:(lia) HL) as [Hc1 Hc2].
    pose proof (Zgt_cases y (UintToArith256 (BCDBeginPowLimit params))) as Hc.
    eapply Z.le_trans; [apply GetCompact_decode_le; lia |].
    destruct (y >? _); lia. }
  assert (Hrange : forall v,
    lwma_window pindexLast params (T * tri N) = Some v ->
    0 <= sumWeightedSolvetimes v < 2 ^ 31).
  { intros v Hv.
    destruct (lwma_window_bounds pindexLast params M v HT HN Hh Hsum Htimes HM Hv)
      as (Hw & [Hs _] & _).
    rewrite Hw in Hs. fold T N in Hs. lia. }
  split; intros r.
  - rewrite Lwma_via_window. cbv zeta. fold T N height. rewrite Hk1.
    destruct (fPowNoRetargeting params).
    { intros Hr. apply Some_inj in Hr. subst r. lia. }
    rewrite (proj2 (Z.ltb_ge height N)) by lia.
    destruct (lwma_window pindexLast params (T * tri N)) as [v |] eqn:Hv;
      [| discriminate].
    cbn [bind]. intros Hr. apply Some_inj in Hr. subst r.
    unfold mul_u32. rewrite uint32_small by (specialize (Hrange v eq_refl); lia).
    apply (Hfinal v _ eq_refl eq_refl).
  - rewrite Part000_via_window. cbv zeta. fold T N height. rewrite Hk2.
    destruct (fPowNoRetargeting params).
    { intros Hr. apply Some_inj in Hr. subst r. lia. }
    rewrite (proj2 (Z.ltb_ge height N)) by lia.
    destruct (lwma_window pindexLast params (T * tri N)) as [v |] eqn:Hv;
      [| discriminate].
    cbn [bind]. intros Hr. apply Some_inj in Hr. subst r.
    unfold mul, of_uint64.
    rewrite uint64_small by (specialize (Hrange v eq_refl); lia).
    rewrite (Z.mul_comm (sumWeightedSolvetimes v)).
    apply (Hfinal v _ eq_refl eq_refl).
Qed.

Lemma Lwma_zero_divisor_witness :
  LwmaCalculateNextWorkRequired steady_chain zero_spacing_params = None.
Proof.
  apply (Lwma_zero_divisor steady_chain zero_spacing_params);
    vm_compute; repeat split; congruence.
Defined.

Lemma Lwma_degenerate_window_witness :
  LwmaCalculateNextWorkRequired steady_chain empty_window_params = Some 0 /\
  LwmaCalculateNextWorkRequired steady_chain negative_window_params = None.
Proof.
  split.
  - apply (proj1 (Lwma_degenerate_window steady_chain empty_window_params
                    eq_refl ltac:(vm_compute; split; congruence))).
    reflexivity.
  - apply (proj2 (Lwma_degenerate_window steady_chain negative_window_params
                    eq_refl ltac:(vm_compute; split; congruence))).
    vm_compute. split; congruence.
Defined.

Lemma Lwma_sixfold_bound_witness :
  SetCompact 469827582 <= 6 * SetCompact hex_1c00ffff.
Proof.
  refine (proj1 (Lwma_sixfold_bound steady_chain scenario_params
                   (SetCompact hex_1c00ffff) _ _ _ _ _ _) 469827582 _).
  - reflexivity.
  - vm_compute. split; congruence.
  - reflexivity.
  - reflexivity.
  - intros b [<- | [<- | [<- | []]]]; vm_compute; split; congruence.
  - intros i b Hi. cbn in Hi.
    assert (Hc : i = 1 \/ i = 2) by lia.
    destruct Hc as [-> | ->]; intros Hb; apply Some_inj in Hb; subst b;
      vm_compute; congruence.
  - reflexivity.
Defined.

(** ** What the LWMA computation reads *)

Lemma GetAncestor_self b : 0 <= nHeight b -> GetAncestor b (nHeight b) = Some b.
Proof.
  intros H. unfold GetAncestor.
  rewrite Z.gtb_ltb, Z.ltb_irrefl, (proj2 (Z.ltb_ge (nHeight b) 0)) by lia.
  cbn [orb]. rewrite Z.sub_diag. reflexivity.
Qed.

Lemma lwma_body_same_data p1 p2 T kN i v :
  same_block_data (GetAncestor p1 i) (GetAncestor p2 i) ->
  lwma_body p1 T kN i v = lwma_body p2 T kN i v.
Proof.
  unfold lwma_body, same_block_data.
  destruct (GetAncestor p1 i) as [b1 |], (GetAncestor p2 i) as [b2 |];
    try contradiction; [| reflexivity].
  intros [Ht Hb]. cbn [bind]. unfold GetBlockTime. rewrite Ht, Hb. reflexivity.
Qed.

Lemma lwma_loop_same_data p1 p2 T kN n :
  forall i v,
  (forall j, i <= j < i + Z.of_nat n ->
             same_block_data (GetAncestor p1 j) (GetAncestor p2 j)) ->
  lwma_loop p1 T kN n i v = lwma_loop p2 T kN n i v.
Proof.
  induction n as [| n IH]; intros i v Hsame; cbn [lwma_loop]; [reflexivity |].
  rewrite (lwma_body_same_data p1 p2 T kN i v) by (apply Hsame; lia).
  destruct (lwma_body p2 T kN i v) as [v1 |]; [| reflexivity]. cbn [bind].
  apply IH. intros j Hj. apply Hsame. lia.
Qed.

Lemma lwma_window_same_data p1 p2 params k :
  let N := nZawyLwmaAveragingWindow params in
  nHeight p1 = nHeight p2 ->
  0 <= N <= nHeight p1 -> nHeight p1 < INT_MAX ->
  (forall i, nHeight p1 - N <= i <= nHeight p1 ->
             same_block_data (GetAncestor p1 i) (GetAncestor p2 i)) ->
  lwma_window p1 params k = lwma_window p2 params k.
Proof.
  intros N Hh HN Hmax Hsame. unfold INT_MAX in Hmax.
  unfold lwma_window. fold N. rewrite <- Hh.
  set (height := nHeight p1) in *.
  rewrite (int64_small (height - N)) by in_range.
  rewrite (int32_small (height - N)) by in_range.
  rewrite (int64_small (height - N + 1)) by in_range.
  pose proof (Hsame (height - N) ltac:(lia)) as H0.
  unfold same_block_data in H0.
  destruct (GetAncestor p1 (height - N)) as [b1 |],
           (GetAncestor p2 (height - N)) as [b2 |];
    try contradiction; [| reflexivity].
  destruct H0 as [Ht _]. cbn [bind]. unfold GetBlockTime. rewrite Ht.
  unfold lwma_for.
  destruct (_ && _); [reflexivity |].
  destruct (Z.eq_dec N 0) as [HN0 | HN0].
  - rewrite HN0, Z.sub_0_r.
    destruct (Z.eq_dec height (2 ^ 31 - 1)); [lia |].
    rewrite (int32_small (height + 1)) by in_range.
    replace (height - (height + 1) + 1) with 0 by lia. reflexivity.
  - rewrite (int32_small (height - N + 1)) by in_range.
    apply lwma_loop_same_data.
    intros j Hj. apply Hsame.
    rewrite Z2Nat.id in Hj by lia. lia.
Qed.

(** X6. The LWMA computation, in both revisions, reads the last block's
    height, and the time and bits of the blocks from [N] below the last
    block up to it: two chains that agree there get the same result, whatever
    the older blocks are. *)
Theorem Lwma_reads_window_only p1 p2 params :
  let N := nZawyLwmaAveragingWindow params in
  nHeight p1 = nHeight p2 ->
  0 <= N <= nHeight p1 -> nHeight p1 < INT_MAX ->
  (forall i, nHeight p1 - N <= i <= nHeight p1 ->
             same_block_data (GetAncestor p1 i) (GetAncestor p2 i)) ->
  LwmaCalculateNextWorkRequired p1 params
  = LwmaCalculateNextWorkRequired p2 params /\
  Part000.LwmaCalculateNextWorkRequired p1 params
  = Part000.LwmaCalculateNextWorkRequired p2 params.
Proof.
  intros N Hh HN Hmax Hsame.
  assert (Hbits : nBits p1 = nBits p2).
  { pose proof (Hsame (nHeight p1) ltac:(lia)) as H.
    rewrite (GetAncestor_self p1) in H by lia.
    rewrite Hh in H. rewrite (GetAncestor_self p2) in H by lia.
    cbn in H. tauto. }
  rewrite !Lwma_via_window, !Part000_via_window. cbv zeta. fold N.
  rewrite <- Hh, <- Hbits.
  rewrite !(lwma_window_same_data p1 p2 params _ Hh HN Hmax Hsame).
  split; reflexivity.
Qed.

Lemma Lwma_reads_window_only_witness :
  LwmaCalculateNextWorkRequired (four_block_chain 0 hex_1c00ffff) scenario_params
  = LwmaCalculateNextWorkRequired (four_block_chain 77 hex_1d00ffff)
      scenario_params.
Proof.
  refine (proj1 (Lwma_reads_window_only (four_block_chain 0 hex_1c00ffff)
                   (four_block_chain 77 hex_1d00ffff) scenario_params
                   _ _ _ _)).
  - reflexivity.
  - vm_compute. split; congruence.
  - reflexivity.
  - intros i Hi. cbn in Hi.
    assert (Hc : i = 1 \/ i = 2 \/ i = 3) by lia.
    destruct Hc as [-> | [-> | ->]]; vm_compute; split; reflexivity.
Defined.

(** ** Fixed difficulty *)

(** X7. With retargeting switched off and the minimum-difficulty rule off,
    the difficulty never changes outside the two fork heights: under LWMA
    [GetNextWorkRequired] returns the last block's bits without looking at
    the chain, and under the legacy retarget every value it returns is the
    last block's bits. *)
Theorem no_retargeting_keeps_bits pindexLast pblock params :
  let h := int32 (nHeight pindexLast + 1) in
  fPowNoRetargeting params = true ->
  fPowAllowMinDifficultyBlocks params = false ->
  h <> BCDHeight params -> h <> int32 (BCDHeight params + 1) ->
  (ZawyLWMAHeight params <= h ->
   GetNextWorkRequired pindexLast pblock params = Some (nBits pindexLast)) /\
  (forall r, GetNextWorkRequired pindexLast pblock params = Some r ->
             r = nBits pindexLast).
Proof.
  intros h Hno Hoff N1 N2.
  assert (Hlwma : LwmaGetNextWorkRequired pindexLast pblock params
                  = Some (nBits pindexLast)).
  { unfold LwmaGetNextWorkRequired, LwmaCalculateNextWorkRequired.
    rewrite Hoff, Hno. reflexivity. }
  split.
  - intros Hge.
    rewrite (dispatch_lwma pindexLast pblock params N1 N2 Hge). exact Hlwma.
  - intros r.
    destruct (Z_lt_le_dec h (ZawyLWMAHeight params)) as [Hlt | Hge].
    + rewrite (dispatch_legacy pindexLast pblock params N1 N2 Hlt).
      unfold BCDGetNextWorkRequired.
      destruct (legacy_height_interval pindexLast params) as [[height interval] |];
        [| discriminate]. cbn [bind].
      destruct (c_rem height interval) as [m |]; [| discriminate]. cbn [bind].
      rewrite Hoff.
      destruct (negb (m =? 0)).
      * intros Hr. apply Some_inj in Hr. congruence.
      * destruct (_ <? 0); [discriminate |].
        destruct (GetAncestor pindexLast _) as [pindexFirst |]; [| discriminate].
        cbn [bind]. unfold CalculateNextWorkRequired. rewrite Hno.
        intros Hr. apply Some_inj in Hr. congruence.
    + rewrite (dispatch_lwma pindexLast pblock params N1 N2 Hge), Hlwma.
      intros Hr. apply Some_inj in Hr. congruence.
Qed.

Lemma no_retargeting_keeps_bits_witness :
  GetNextWorkRequired steady_chain (BlockHeader 1800) fixed_difficulty_params
  = Some hex_1c00ffff.
Proof.
  assert (H : exists r, GetNextWorkRequired steady_chain (BlockHeader 1800)
                          fixed_difficulty_params = Some r)
    by (eexists; reflexivity).
  destruct H as [r Hr]. rewrite Hr. f_equal.
  apply (proj2 (no_retargeting_keeps_bits steady_chain (BlockHeader 1800)
                  fixed_difficulty_params eq_refl eq_refl
                  ltac:(vm_compute; congruence) ltac:(vm_compute; congruence))
           r Hr).
Defined.

(** ** The proof-of-work check *)

Lemma CheckProofOfWork_true_iff hash nBits params :
  CheckProofOfWork hash nBits params = true <->
  compact_negative nBits = false /\ compact_overflow nBits = false /\
  SetCompact nBits <> 0 /\
  SetCompact nBits <= UintToArith256 (powLimit params) /\
  UintToArith256 hash <= SetCompact nBits.
Proof.
  unfold CheckProofOfWork, compact_negative, compact_overflow, SetCompact.
  destruct (SetCompact_full nBits) as [[bnTarget fNegative] fOverflow].
  cbn [fst snd].
  pose proof (Zgt_cases bnTarget (UintToArith256 (powLimit params))) as C1.
  pose proof (Zgt_cases (UintToArith256 hash) bnTarget) as C2.
  pose proof (Z.eqb_eq bnTarget 0) as C0.
  destruct fNegative, fOverflow, (bnTarget =? 0),
    (bnTarget >? UintToArith256 (powLimit params)),
    (UintToArith256 hash >? bnTarget); cbn;
    (split; intros H; try reflexivity; try discriminate H);
    intuition (try discriminate; try lia).
Qed.

(** X8. [CheckProofOfWork] is downward closed in the hash and upward closed
    in the limit: bits that a hash satisfies are satisfied by every smaller
    hash, and stay satisfied under every larger [powLimit]. *)
Theorem CheckProofOfWork_monotone hash hash' nBits params params' :
  CheckProofOfWork hash nBits params = true ->
  UintToArith256 hash' <= UintToArith256 hash ->
  UintToArith256 (powLimit params) <= UintToArith256 (powLimit params') ->
  CheckProofOfWork hash' nBits params' = true.
Proof.
  intros Hc Hh Hl.
  apply CheckProofOfWork_true_iff in Hc.
  apply CheckProofOfWork_true_iff. intuition lia.
Qed.

Lemma CheckProofOfWork_monotone_witness :
  CheckProofOfWork 5 hex_1c00ffff mainnet_params = true.
Proof.
  apply (CheckProofOfWork_monotone (SetCompact hex_1c00ffff) 5 hex_1c00ffff
           scenario_params mainnet_params); vm_compute; congruence.
Defined.

(** ** Encoded targets before the proof-of-work check *)

Lemma bit23_clear c : 0 <= c < 2 ^ 23 -> Z.land c 8388608 = 0.
Proof.
  intros Hc. apply Z.bits_inj'. intros n Hn.
  rewrite Z.land_spec, Z.bits_0. change 8388608 with (2 ^ 23).
  rewrite Z.pow2_bits_eqb by lia.
  destruct (Z.eqb_spec 23 n) as [<- | _]; [| apply andb_false_r].
  rewrite andb_true_r. apply Z.testbit_false; [lia |].
  rewrite Z.div_small by lia. reflexivity.
Qed.

Lemma pack_fields c sz :
  0 <= c < 2 ^ 23 -> 0 <= sz ->
  Z.shiftr (Z.lor c (Z.shiftl sz 24)) 24 = sz /\
  Z.land (Z.lor c (Z.shiftl sz 24)) 8388607 = c /\
  Z.land (Z.lor c (Z.shiftl sz 24)) 8388608 = 0.
Proof.
  intros Hc Hsz. split; [| split].
  - rewrite Z.shiftr_lor, Z.shiftr_shiftl_l by lia.
    rewrite Z.sub_diag, Z.shiftl_0_r.
    rewrite Z.shiftr_div_pow2 by lia.
    rewrite Z.div_small by lia. reflexivity.
  - rewrite Z.land_lor_distr_l.
    change 8388607 with (Z.ones 23). rewrite !Z.land_ones by lia.
    rewrite Z.mod_small by lia.
    rewrite Z.shiftl_mul_pow2 by lia.
    change (2 ^ 24) with (2 * 2 ^ 23).
    rewrite Z.mul_assoc, Z.mod_mul by lia.
    apply Z.lor_0_r.
  - rewrite Z.land_lor_distr_l, (bit23_clear c Hc), Z.lor_0_l.
    apply Z.bits_inj'. intros n Hn.
    rewrite Z.land_spec, Z.bits_0. change 8388608 with (2 ^ 23).
    rewrite Z.pow2_bits_eqb by lia.
    destruct (Z.eqb_spec 23 n) as [<- | _]; [| apply andb_false_r].
    rewrite Z.shiftl_spec_low by lia. reflexivity.
Qed.

(** The encoder packs a size of at most 33 bytes and a mantissa below
    [2^23], below [2^16] when the size is 33. *)
Lemma GetCompact_shape v :
  0 <= v < 2 ^ 256 ->
  exists c sz,
    GetCompact v = Z.lor c (Z.shiftl sz 24) /\
    0 <= c < 2 ^ 23 /\ 0 <= sz <= 33 /\ (32 < sz -> c < 2 ^ 16).
Proof.
  intros Hv. destruct (compact_size_range v Hv) as [Hs Hlt].
  unfold GetCompact. set (nSize := (bits v + 7) / 8) in *.
  destruct (nSize <=? 3) eqn:E3.
  - apply Z.leb_le in E3.
    set (k := 8 * (3 - nSize)).
    assert (Hk : 0 <= k) by (unfold k; lia).
    assert (Hpk : 0 < 2 ^ k) by (apply Z.pow_pos_nonneg; lia).
    assert (Hsplit : 2 ^ (8 * nSize) * 2 ^ k = 2 ^ 24).
    { rewrite <- Z.pow_add_r by lia. f_equal. unfold k. lia. }
    assert (Hm : 0 <= v * 2 ^ k < 2 ^ 24) by nia.
    assert (Hv24 : v < 2 ^ 24) by nia.
    assert (Hc0 : uint32 (uint64 (Z.shiftl (GetLow64 v) k)) = Z.shiftl v k).
    { unfold GetLow64. rewrite (Z.mod_small v) by lia.
      rewrite Z.shiftl_mul_pow2 by lia.
      rewrite uint64_small, uint32_small; lia. }
    rewrite Hc0.
    assert (Hm' : 0 <= Z.shiftl v k < 2 ^ 24)
      by (rewrite Z.shiftl_mul_pow2 by lia; exact Hm).
    destruct (Z.land (Z.shiftl v k) 8388608 =? 0) eqn:Esign; cbn [negb].
    + apply Z.eqb_eq in Esign.
      pose proof (sign_bit_clear _ Hm' Esign) as H23.
      exists (Z.shiftl v k), nSize. repeat split; lia.
    + exists (Z.shiftr (Z.shiftl v k) 8), (nSize + 1).
      assert (Hc : 0 <= Z.shiftr (Z.shiftl v k) 8 < 2 ^ 16).
      { rewrite Z.shiftr_div_pow2 by lia. change (2 ^ 8) with 256.
        Z.div_mod_to_equations. lia. }
      repeat split; lia.
  - apply Z.leb_gt in E3.
    set (s := 8 * (nSize - 3)).
    assert (Hs8 : 8 <= s) by (unfold s; lia).
    assert (Hps : 0 < 2 ^ s) by (apply Z.pow_pos_nonneg; lia).
    assert (Hsplit : 2 ^ s * 2 ^ 24 = 2 ^ (8 * nSize)).
    { rewrite <- Z.pow_add_r by lia. f_equal. unfold s. lia. }
    assert (Hm : 0 <= Z.shiftr v s < 2 ^ 24).
    { rewrite Z.shiftr_div_pow2 by lia. split.
      - apply Z.div_pos; lia.
      - apply Z.div_lt_upper_bound; lia. }
    assert (Hc0 : uint32 (GetLow64 (Z.shiftr v s)) = Z.shiftr v s).
    { unfold GetLow64. rewrite Z.mod_small by lia. apply uint32_small. lia. }
    rewrite Hc0.
    destruct (Z.land (Z.shiftr v s) 8388608 =? 0) eqn:Esign; cbn [negb].
    + apply Z.eqb_eq in Esign.
      pose proof (sign_bit_clear _ Hm Esign) as H23.
      exists (Z.shiftr v s), nSize. repeat split; lia.
    + exists (Z.shiftr (Z.shiftr v s) 8), (nSize + 1).
      assert (Hc : 0 <= Z.shiftr (Z.shiftr v s) 8 < 2 ^ 16).
      { rewrite (Z.shiftr_div_pow2 _ 8) by lia. change (2 ^ 8) with 256.
        Z.div_mod_to_equations. lia. }
      repeat split; lia.
Qed.

(** What the encoder produces is never flagged by the decoder. *)
Lemma GetCompact_flags v :
  0 <= v < 2 ^ 256 ->
  compact_negative (GetCompact v) = false /\
  compact_overflow (GetCompact v) = false.
Proof.
  intros Hv.
  destruct (GetCompact_shape v Hv) as (c & sz & -> & Hc & Hsz & H33).
  destruct (pack_fields c sz Hc ltac:(lia)) as (Hsize & Hword & Hsign).
  unfold compact_negative, compact_overflow, SetCompact_full. cbn [fst snd].
  rewrite Hsize, Hword, Hsign.
  change (0 =? 0) with true. cbn [negb]. rewrite andb_false_r.
  split; [reflexivity |].
  rewrite !Z.gtb_ltb.
  rewrite (proj2 (Z.ltb_ge 34 sz)), (proj2 (Z.ltb_ge 33 sz)) by lia.
  rewrite andb_false_r. cbn [orb].
  destruct (Z.ltb_spec 32 sz) as [H32 | H32].
  - specialize (H33 H32).
    rewrite (proj2 (Z.leb_gt sz 3)) by lia.
    rewrite (proj2 (Z.ltb_ge 65535 c)) by lia.
    cbn [andb]. apply andb_false_r.
  - rewrite andb_false_r. apply andb_false_r.
Qed.

Lemma CheckProofOfWork_encoded v hash params :
  0 <= v < 2 ^ 256 ->
  (CheckProofOfWork hash (GetCompact v) params = true <->
   SetCompact (GetCompact v) <> 0 /\
   SetCompact (GetCompact v) <= UintToArith256 (powLimit params) /\
   UintToArith256 hash <= SetCompact (GetCompact v)).
Proof.
  intros Hv. destruct (GetCompact_flags v Hv) as [Hn Ho].
  rewrite CheckProofOfWork_true_iff. rewrite Hn, Ho. tauto.
Qed.

(** ** How much the encoding loses *)

Lemma bits_lower v : 0 < v -> 2 ^ (bits v - 1) <= v.
Proof.
  intros Hv. unfold bits. rewrite (proj2 (Z.eqb_neq v 0)) by lia.
  replace (Z.log2 v + 1 - 1) with (Z.log2 v) by lia.
  apply Z.log2_spec. exact Hv.
Qed.

Lemma div_lt_pow a s : 0 <= a -> 0 <= s -> a / 2 ^ s < 2 ^ 23 -> a < 2 ^ (s + 23).
Proof.
  intros Ha Hs Hd.
  assert (Hp : 0 < 2 ^ s) by (apply Z.pow_pos_nonneg; lia).
  rewrite Z.pow_add_r by lia.
  pose proof (Z.div_mod a (2 ^ s) ltac:(lia)) as Hdm.
  pose proof (Z.mod_pos_bound a (2 ^ s) Hp). nia.
Qed.

Lemma div_ge_pow a s : 0 <= a -> 0 <= s -> 2 ^ 23 <= a / 2 ^ s -> 2 ^ (s + 23) <= a.
Proof.
  intros Ha Hs Hd.
  assert (Hp : 0 < 2 ^ s) by (apply Z.pow_pos_nonneg; lia).
  rewrite Z.pow_add_r by lia.
  pose proof (Z.mul_div_le a (2 ^ s) Hp). nia.
Qed.

(** Decoding an encoded value rounds it down to a multiple of [2^(8 j)],
    where the value is below [2^(8 j + 23)] and, unless [j] is zero, at least
    [2^(8 j + 15)]. *)
Lemma decode_encode_form v :
  0 <= v < 2 ^ 256 ->
  exists j, 0 <= j /\
    SetCompact (GetCompact v) = v / 2 ^ (8 * j) * 2 ^ (8 * j) /\
    v < 2 ^ (8 * j + 23) /\ (0 < j -> 2 ^ (8 * j + 15) <= v).
Proof.
  intros Hv. destruct (compact_size_range v Hv) as [Hs Hlt].
  unfold GetCompact. set (nSize := (bits v + 7) / 8) in *.
  destruct (nSize <=? 3) eqn:E3.
  - apply Z.leb_le in E3.
    set (k := 8 * (3 - nSize)).
    assert (Hk : 0 <= k) by (unfold k; lia).
    assert (Hpk : 0 < 2 ^ k) by (apply Z.pow_pos_nonneg; lia).
    assert (Hsplit : 2 ^ (8 * nSize) * 2 ^ k = 2 ^ 24).
    { rewrite <- Z.pow_add_r by lia. f_equal. unfold k. lia. }
    assert (Hm : 0 <= v * 2 ^ k < 2 ^ 24) by nia.
    assert (Hv24 : v < 2 ^ 24) by nia.
    assert (Hc0 : uint32 (uint64 (Z.shiftl (GetLow64 v) k)) = Z.shiftl v k).
    { unfold GetLow64. rewrite (Z.mod_small v) by lia.
      rewrite Z.shiftl_mul_pow2 by lia.
      rewrite uint64_small, uint32_small; lia. }
    rewrite Hc0.
    assert (Hm' : 0 <= Z.shiftl v k < 2 ^ 24)
      by (rewrite Z.shiftl_mul_pow2 by lia; exact Hm).
    destruct (Z.land (Z.shiftl v k) 8388608 =? 0) eqn:Esign; cbn [negb].
    + apply Z.eqb_eq in Esign.
      pose proof (sign_bit_clear _ Hm' Esign) as H23.
      pose proof H23 as H23'.
      rewrite Z.shiftl_mul_pow2 in H23' by lia.
      exists 0. split; [lia |].
      rewrite SetCompact_pack by lia.
      rewrite (proj2 (Z.leb_le nSize 3) E3). fold k.
      rewrite shift_up_down by lia.
      change (2 ^ (8 * 0)) with 1. rewrite Z.div_1_r, Z.mul_1_r.
      split; [reflexivity |]. split; [| lia].
      change (2 ^ (8 * 0 + 23)) with (2 ^ 23). nia.
    + assert (Hc : 0 <= Z.shiftr (Z.shiftl v k) 8 < 2 ^ 23).
      { rewrite Z.shiftr_div_pow2 by lia. change (2 ^ 8) with 256.
        Z.div_mod_to_equations. lia. }
      rewrite SetCompact_pack by lia.
      destruct (nSize + 1 <=? 3) eqn:E2.
      * apply Z.leb_le in E2.
        exists 0. split; [lia |].
        rewrite Z.shiftr_shiftr by lia.
        replace (8 + 8 * (3 - (nSize + 1))) with k by (unfold k; lia).
        rewrite shift_up_down by lia.
        change (2 ^ (8 * 0)) with 1. rewrite Z.div_1_r, Z.mul_1_r.
        split; [reflexivity |]. split; [| lia].
        change (2 ^ (8 * 0 + 23)) with (2 ^ 23).
        assert (2 ^ (8 * nSize) <= 2 ^ 16) by (apply Z.pow_le_mono_r; lia).
        lia.
      * apply Z.leb_gt in E2.
        assert (nSize = 3) as E by lia.
        assert (Hk0 : k = 0) by (unfold k; lia).
        rewrite Hk0, Z.shiftl_0_r in *.
        apply Z.eqb_neq in Esign.
        assert (H23 : 2 ^ 23 <= v).
        { destruct (Z_lt_le_dec v (2 ^ 23)) as [Hlow |]; [| assumption].
          exfalso. apply Esign. apply bit23_clear. lia. }
        exists 1. split; [lia |].
        rewrite E. change (8 * (3 + 1 - 3)) with 8. change (8 * 1) with 8.
        rewrite Z.shiftl_mul_pow2, Z.shiftr_div_pow2 by lia.
        rewrite u256_small.
        2:{ pose proof (Z.mul_div_le v (2 ^ 8) ltac:(lia)).
            assert (0 <= v / 2 ^ 8) by (apply Z.div_pos; lia). lia. }
        split; [reflexivity |]. split; [| intros _; exact H23].
        change (2 ^ (8 + 23)) with (2 ^ 31). lia.
  - apply Z.leb_gt in E3.
    set (s := 8 * (nSize - 3)).
    assert (Hs8 : 8 <= s) by (unfold s; lia).
    assert (Hps : 0 < 2 ^ s) by (apply Z.pow_pos_nonneg; lia).
    assert (Hsplit : 2 ^ s * 2 ^ 24 = 2 ^ (8 * nSize)).
    { rewrite <- Z.pow_add_r by lia. f_equal. unfold s. lia. }
    assert (Hm : 0 <= Z.shiftr v s < 2 ^ 24).
    { rewrite Z.shiftr_div_pow2 by lia. split.
      - apply Z.div_pos; lia.
      - apply Z.div_lt_upper_bound; lia. }
    assert (Hc0 : uint32 (GetLow64 (Z.shiftr v s)) = Z.shiftr v s).
    { unfold GetLow64. rewrite Z.mod_small by lia. apply uint32_small. lia. }
    rewrite Hc0.
    assert (Hvpos : 0 < v).
    { destruct (Z.eq_dec v 0) as [E0 | ]; [| lia].
      exfalso. subst v. change (bits 0) with 0 in nSize.
      change nSize with 0 in E3. lia. }
    assert (Hbits : s + 17 <= bits v).
    { unfold s. subst nSize. Z.div_mod_to_equations. lia. }
    pose proof (bits_lower v Hvpos) as Hlow.
    assert (Hlow' : 2 ^ (s + 16) <= v).
    { eapply Z.le_trans; [| exact Hlow]. apply Z.pow_le_mono_r; lia. }
    destruct (Z.land (Z.shiftr v s) 8388608 =? 0) eqn:Esign; cbn [negb].
    + apply Z.eqb_eq in Esign.
      pose proof (sign_bit_clear _ Hm Esign) as H23.
      exists (nSize - 3). split; [lia |].
      rewrite SetCompact_pack by lia.
      rewrite (proj2 (Z.leb_gt nSize 3) E3). fold s.
      rewrite Z.shiftl_mul_pow2, Z.shiftr_div_pow2 by lia.
      rewrite Z.shiftr_div_pow2 in H23 by lia.
      replace (8 * (nSize - 3)) with s by (unfold s; lia).
      rewrite u256_small.
      2:{ pose proof (Z.mul_div_le v (2 ^ s) ltac:(lia)).
          assert (0 <= v / 2 ^ s) by (apply Z.div_pos; lia). lia. }
      split; [reflexivity |]. split.
      * apply div_lt_pow; lia.
      * intros _. eapply Z.le_trans; [| exact Hlow'].
        apply Z.pow_le_mono_r; lia.
    + assert (Hc : 0 <= Z.shiftr (Z.shiftr v s) 8 < 2 ^ 23).
      { rewrite (Z.shiftr_div_pow2 _ 8) by lia. change (2 ^ 8) with 256.
        Z.div_mod_to_equations. lia. }
      apply Z.eqb_neq in Esign.
      assert (H23 : 2 ^ 23 <= Z.shiftr v s).
      { destruct (Z_lt_le_dec (Z.shiftr v s) (2 ^ 23)) as [Hl |]; [| assumption].
        exfalso. apply Esign. apply bit23_clear. lia. }
      rewrite Z.shiftr_div_pow2 in H23 by lia.
      exists (nSize - 2). split; [lia |].
      rewrite SetCompact_pack by lia.
      rewrite (proj2 (Z.leb_gt (nSize + 1) 3)) by lia.
      rewrite Z.shiftr_shiftr by lia.
      replace (8 * (nSize + 1 - 3)) with (s + 8) by (unfold s; lia).
      replace (8 * (nSize - 2)) with (s + 8) by (unfold s; lia).
      rewrite Z.shiftl_mul_pow2, Z.shiftr_div_pow2 by lia.
      assert (Hp8 : 0 < 2 ^ (s + 8)) by (apply Z.pow_pos_nonneg; lia).
      rewrite u256_small.
      2:{ pose proof (Z.mul_div_le v (2 ^ (s + 8)) ltac:(lia)).
          assert (0 <= v / 2 ^ (s + 8)) by (apply Z.div_pos; lia). lia. }
      split; [reflexivity |]. split.
      * eapply Z.lt_le_trans; [exact Hlt |].
        apply Z.pow_le_mono_r; unfold s; lia.
      * intros _. replace (s + 8 + 15) with (s + 23) by lia.
        apply div_ge_pow; lia.
Qed.

(** Decoding after encoding is monotone. *)
Lemma decode_encode_mono v1 v2 :
  0 <= v1 -> v1 <= v2 -> v2 < 2 ^ 256 ->
  SetCompact (GetCompact v1) <= SetCompact (GetCompact v2).
Proof.
  intros H1 Hle H2.
  destruct (decode_encode_form v1 ltac:(lia)) as (j1 & Hj1 & -> & Hu1 & Hl1).
  destruct (decode_encode_form v2 ltac:(lia)) as (j2 & Hj2 & -> & Hu2 & Hl2).
  assert (Hp1 : 0 < 2 ^ (8 * j1)) by (apply Z.pow_pos_nonneg; lia).
  assert (Hp2 : 0 < 2 ^ (8 * j2)) by (apply Z.pow_pos_nonneg; lia).
  destruct (Z.lt_trichotomy j1 j2) as [Hlt | [-> | Hgt]].
  - (* the larger value has the larger exponent *)
    specialize (Hl2 ltac:(lia)).
    assert (Hpow : 2 ^ (8 * j1 + 23) <= 2 ^ (8 * j2 + 15))
      by (apply Z.pow_le_mono_r; lia).
    pose proof (Z.mul_div_le v1 (2 ^ (8 * j1)) Hp1) as Hd1.
    assert (Hmult : 2 ^ (8 * j2 + 15) = 2 ^ 15 * 2 ^ (8 * j2))
      by (rewrite <- Z.pow_add_r by lia; f_equal; lia).
    assert (Hq : 2 ^ 15 <= v2 / 2 ^ (8 * j2)).
    { apply Z.div_le_lower_bound; [lia |]. lia. }
    nia.
  - apply Z.mul_le_mono_nonneg_r; [lia |].
    apply Z.div_le_mono; lia.
  - exfalso. specialize (Hl1 ltac:(lia)).
    assert (Hpow : 2 ^ (8 * j2 + 23) <= 2 ^ (8 * j1 + 15))
      by (apply Z.pow_le_mono_r; lia).
    lia.
Qed.

(** ** The boundary retarget as a function of the elapsed time *)

Lemma clamp_timespan_mono limit ts n1 n2 :
  n1 <= n2 -> clamp_timespan limit ts n1 <= clamp_timespan limit ts n2.
Proof.
  intros Hn. unfold clamp_timespan.
  set (lo := Z.quot ts limit). set (hi := int32 (ts * limit)).
  assert (Hm : (if n1 <? lo then lo else n1) <= (if n2 <? lo then lo else n2))
    by (destruct (Z.ltb_spec n1 lo), (Z.ltb_spec n2 lo); lia).
  revert Hm.
  generalize (if n1 <? lo then lo else n1), (if n2 <? lo then lo else n2).
  intros m1 m2 Hm.
  pose proof (Zgt_cases m1 hi) as C1. pose proof (Zgt_cases m2 hi) as C2.
  destruct (m1 >? hi), (m2 >? hi); lia.
Qed.

Lemma retarget_bnNew_exact pindexLast nFirstBlockTime params limit ts :
  retarget_timespan pindexLast params = (limit, ts) ->
  0 < ts -> ts * limit < 2 ^ 31 ->
  SetCompact (nBits pindexLast) * (ts * limit) < 2 ^ 256 ->
  let actual :=
    clamp_timespan limit ts (int64 (GetBlockTime pindexLast - nFirstBlockTime)) in
  0 <= actual <= ts * limit /\
  retarget_bnNew pindexLast nFirstBlockTime params
  = Some (Z.min (SetCompact (nBits pindexLast) * actual / ts)
                (UintToArith256 (powLimit params))).
Proof.
  intros Hts Hpos Hfit Hnowrap actual.
  assert (Hlim : 0 < limit)
    by (destruct (retarget_timespan_limit _ _ _ _ Hts); lia).
  pose proof (clamp_timespan_range limit ts
                (int64 (GetBlockTime pindexLast - nFirstBlockTime))
                Hlim Hpos Hfit) as Hact.
  fold actual in Hact.
  assert (Hdiv0 : 0 <= ts / limit) by (apply Z.div_pos; lia).
  pose proof (SetCompact_nonneg (nBits pindexLast)) as Hold.
  split; [lia |].
  unfold retarget_bnNew. rewrite Hts. fold actual.
  unfold mul_u32. rewrite uint32_small by lia.
  rewrite u256_small by nia.
  unfold of_uint64. rewrite uint64_small by lia.
  unfold div. rewrite (proj2 (Z.eqb_neq ts 0)) by lia. cbn [bind].
  f_equal.
  pose proof (Zgt_cases (SetCompact (nBits pindexLast) * actual / ts)
                (UintToArith256 (powLimit params))) as C.
  destruct (_ >? _); lia.
Qed.

(** X9. The retargeted target grows with the elapsed time: when no product
    leaves 256 bits, an earlier first-block time, that is a longer period,
    never gives a smaller [bnNew], and the bits returned never decode to a
    smaller target. *)
Theorem retarget_monotone_in_timespan pindexLast params first1 first2 limit ts :
  retarget_timespan pindexLast params = (limit, ts) ->
  0 < ts -> ts * limit < 2 ^ 31 ->
  SetCompact (nBits pindexLast) * (ts * limit) < 2 ^ 256 ->
  in_int64 (GetBlockTime pindexLast - first1) ->
  in_int64 (GetBlockTime pindexLast - first2) ->
  first2 <= first1 ->
  (exists b1 b2,
     retarget_bnNew pindexLast first1 params = Some b1 /\
     retarget_bnNew pindexLast first2 params = Some b2 /\
     b1 <= b2) /\
  (exists r1 r2,
     CalculateNextWorkRequired pindexLast first1 params = Some r1 /\
     CalculateNextWorkRequired pindexLast first2 params = Some r2 /\
     SetCompact r1 <= SetCompact r2).
Proof.
  intros Hts Hpos Hfit Hnowrap Hr1 Hr2 Hle.
  destruct (retarget_bnNew_exact pindexLast first1 params limit ts
              Hts Hpos Hfit Hnowrap) as [Ha1 E1].
  destruct (retarget_bnNew_exact pindexLast first2 params limit ts
              Hts Hpos Hfit Hnowrap) as [Ha2 E2].
  rewrite (int64_small _ Hr1) in *. rewrite (int64_small _ Hr2) in *.
  pose proof (clamp_timespan_mono limit ts
                (GetBlockTime pindexLast - first1)
                (GetBlockTime pindexLast - first2) ltac:(lia)) as Hc.
  pose proof (SetCompact_nonneg (nBits pindexLast)) as Hold.
  set (old := SetCompact (nBits pindexLast)) in *.
  set (a1 := clamp_timespan limit ts (GetBlockTime pindexLast - first1)) in *.
  set (a2 := clamp_timespan limit ts (GetBlockTime pindexLast - first2)) in *.
  pose proof (u256_range (powLimit params)) as HL.
  fold (UintToArith256 (powLimit params)) in HL.
  assert (Hq1 : 0 <= old * a1 / ts) by (apply Z.div_pos; nia).
  assert (Hmono : Z.min (old * a1 / ts) (UintToArith256 (powLimit params))
                  <= Z.min (old * a2 / ts) (UintToArith256 (powLimit params))).
  { apply Z.min_le_compat_r. apply Z.div_le_mono; [lia |].
    apply Z.mul_le_mono_nonneg_l; lia. }
  split.
  - do 2 eexists. split; [exact E1 |]. split; [exact E2 | exact Hmono].
  - unfold CalculateNextWorkRequired.
    destruct (fPowNoRetargeting params).
    + do 2 eexists. split; [reflexivity |]. split; [reflexivity | lia].
    + rewrite E1, E2. cbn [bind].
      do 2 eexists. split; [reflexivity |]. split; [reflexivity |].
      apply decode_encode_mono; lia.
Qed.

Lemma retarget_monotone_in_timespan_witness :
  exists r1 r2,
    CalculateNextWorkRequired (block_at 2015 1209600 hex_1c00ffff None) 604800
      mainnet_params = Some r1 /\
    CalculateNextWorkRequired (block_at 2015 1209600 hex_1c00ffff None) 0
      mainnet_params = Some r2 /\
    SetCompact r1 <= SetCompact r2.
Proof.
  apply (retarget_monotone_in_timespan
           (block_at 2015 1209600 hex_1c00ffff None) mainnet_params
           604800 0 4 1209600); vm_compute; repeat split; congruence.
Defined.

(** X10. A period that took exactly the nominal timespan leaves the target
    as it was: with retargeting enabled, an old target within [powLimit] and
    a product within 256 bits, the retarget returns the old target
    encoded again. *)
Theorem retarget_on_schedule pindexLast nFirstBlockTime params limit ts :
  fPowNoRetargeting params = false ->
  retarget_timespan pindexLast params = (limit, ts) ->
  0 < ts -> ts * limit < 2 ^ 31 ->
  GetBlockTime pindexLast - nFirstBlockTime = ts ->
  SetCompact (nBits pindexLast) * ts < 2 ^ 256 ->
  SetCompact (nBits pindexLast) <= UintToArith256 (powLimit params) ->
  CalculateNextWorkRequired pindexLast nFirstBlockTime params
  = Some (GetCompact (SetCompact (nBits pindexLast))).
Proof.
  intros Hre Hts Hpos Hfit Hspan Hnowrap Hle.
  assert (Hlim : limit = 2 \/ limit = 4)
    by apply (retarget_timespan_limit _ _ _ _ Hts).
  pose proof (SetCompact_nonneg (nBits pindexLast)) as Hold.
  unfold CalculateNextWorkRequired. rewrite Hre.
  unfold retarget_bnNew. rewrite Hts, Hspan.
  rewrite (int64_small ts) by in_range.
  assert (Hclamp : clamp_timespan limit ts ts = ts).
  { unfold clamp_timespan.
    rewrite Z.quot_div_nonneg by lia.
    rewrite (int32_small (ts * limit)) by (cbv [in_int32]; nia).
    assert (ts / limit <= ts) by (apply Z.div_le_upper_bound; nia).
    rewrite (proj2 (Z.ltb_ge ts (ts / limit))) by lia.
    rewrite Z.gtb_ltb, (proj2 (Z.ltb_ge (ts * limit) ts)) by nia.
    reflexivity. }
  rewrite Hclamp.
  unfold mul_u32. rewrite uint32_small by lia.
  rewrite u256_small by nia.
  unfold of_uint64. rewrite uint64_small by lia.
  unfold div. rewrite (proj2 (Z.eqb_neq ts 0)) by lia. cbn [bind].
  rewrite Z.div_mul by lia.
  rewrite Z.gtb_ltb, (proj2 (Z.ltb_ge _ _) Hle). reflexivity.
Qed.

Lemma retarget_on_schedule_witness :
  CalculateNextWorkRequired (block_at 2015 1209600 hex_1c00ffff None) 0
    mainnet_params = Some hex_1c00ffff.
Proof.
  apply (retarget_on_schedule (block_at 2015 1209600 hex_1c00ffff None) 0
           mainnet_params 4 1209600); vm_compute; congruence.
Defined.

(** X11. A target computed by the boundary retarget is never turned down by
    [CheckProofOfWork] for its range: the encoding carries no sign and no
    overflow and decodes within [powLimit], so a hash passes exactly when
    the decoded target is not zero and the hash does not exceed it. *)
Theorem retarget_result_admissible pindexLast nFirstBlockTime params r hash :
  fPowNoRetargeting params = false ->
  CalculateNextWorkRequired pindexLast nFirstBlockTime params = Some r ->
  (CheckProofOfWork hash r params = true <->
   SetCompact r <> 0 /\ UintToArith256 hash <= SetCompact r).
Proof.
  intros Hre. unfold CalculateNextWorkRequired. rewrite Hre.
  unfold retarget_bnNew.
  destruct (retarget_timespan pindexLast params) as [limit ts].
  unfold div.
  destruct (of_uint64 ts =? 0) eqn:Ez; cbn [bind]; [discriminate |].
  intros Hr. apply Some_inj in Hr. subst r.
  apply Z.eqb_neq in Ez.
  set (a := mul_u32 _ _).
  assert (Ha : 0 <= a) by apply u256_range.
  assert (Hb : 0 < of_uint64 ts).
  { unfold of_uint64, uint64 in *.
    pose proof (Z.mod_pos_bound ts (2 ^ 64) ltac:(lia)). lia. }
  assert (Hq : 0 <= a / of_uint64 ts) by (apply Z.div_pos; lia).
  pose proof (clamp_le_limit (a / of_uint64 ts)
                (UintToArith256 (powLimit params)) Hq
                (u256_range (powLimit params))) as [Hc1 Hc2].
  set (bnNew := if _ >? _ then _ else _) in *.
  rewrite (CheckProofOfWork_encoded bnNew hash params) by lia.
  pose proof (GetCompact_decode_le bnNew ltac:(lia)).
  intuition lia.
Qed.

Lemma retarget_result_admissible_witness :
  CheckProofOfWork 5 461373312 mainnet_params = true <->
  SetCompact 461373312 <> 0 /\ UintToArith256 5 <= SetCompact 461373312.
Proof.
  apply (retarget_result_admissible (block_at 2015 604800 hex_1c00ffff None) 0
           mainnet_params 461373312 5); reflexivity.
Defined.




(** X13. What the boundary retarget returns decodes to the computed target
    less at most one part in [2^15]: the encoding keeps at least fifteen
    significant bits and never rounds up. *)
Theorem returned_bits_precision pindexLast nFirstBlockTime params r :
  fPowNoRetargeting params = false ->
  CalculateNextWorkRequired pindexLast nFirstBlockTime params = Some r ->
  exists bnNew,
    retarget_bnNew pindexLast nFirstBlockTime params = Some bnNew /\
    r = GetCompact bnNew /\
    bnNew - bnNew / 2 ^ 15 <= SetCompact r <= bnNew.
Proof.
  intros Hre. unfold CalculateNextWorkRequired. rewrite Hre.
  destruct (retarget_bnNew pindexLast nFirstBlockTime params) as [b |] eqn:Hb;
    [| discriminate].
  cbn [bind]. intros Hr. apply Some_inj in Hr. subst r.
  exists b. split; [reflexivity |]. split; [reflexivity |].
  assert (Hrange : 0 <= b < 2 ^ 256).
  { unfold retarget_bnNew in Hb.
    destruct (retarget_timespan pindexLast params) as [limit ts].
    unfold div in Hb.
    destruct (of_uint64 ts =? 0) eqn:Ez; cbn [bind] in Hb; [discriminate |].
    apply Some_inj in Hb. subst b. apply Z.eqb_neq in Ez.
    set (a := mul_u32 _ _).
    assert (Ha : 0 <= a) by apply u256_range.
    assert (Hts : 0 < of_uint64 ts).
    { unfold of_uint64, uint64 in *.
      pose proof (Z.mod_pos_bound ts (2 ^ 64) ltac:(lia)). lia. }
    assert (Hq : 0 <= a / of_uint64 ts) by (apply Z.div_pos; lia).
    pose proof (clamp_le_limit (a / of_uint64 ts)
                  (UintToArith256 (powLimit params)) Hq
                  (u256_range (powLimit params))). lia. }
  destruct (decode_encode_form b Hrange) as (j & Hj & -> & Hu & Hl).
  assert (Hp : 0 < 2 ^ (8 * j)) by (apply Z.pow_pos_nonneg; lia).
  pose proof (Z.mul_div_le b (2 ^ (8 * j)) Hp) as Hle.
  split; [| lia].
  destruct (Z.eq_dec j 0) as [-> | Hnz].
  - change (2 ^ (8 * 0)) with 1. rewrite Z.div_1_r, Z.mul_1_r.
    assert (0 <= b / 2 ^ 15) by (apply Z.div_pos; lia). lia.
  - specialize (Hl ltac:(lia)).
    rewrite Z.pow_add_r in Hl by lia.
    assert (Hloss : 2 ^ (8 * j) <= b / 2 ^ 15).
    { apply Z.div_le_lower_bound; lia. }
    pose proof (Z.div_mod b (2 ^ (8 * j)) ltac:(lia)) as Hdm.
    pose proof (Z.mod_pos_bound b (2 ^ (8 * j)) Hp). lia.
Qed.

Lemma returned_bits_precision_witness :
  exists bnNew,
    retarget_bnNew (block_at 2015 604800 hex_1c00ffff None) 0 mainnet_params
    = Some bnNew /\
    461373312 = GetCompact bnNew /\
    bnNew - bnNew / 2 ^ 15 <= SetCompact 461373312 <= bnNew.
Proof.
  apply (returned_bits_precision (block_at 2015 604800 hex_1c00ffff None) 0
           mainnet_params 461373312); reflexivity.
Defined.

Lemma Lwma_result_encoded pindexLast params r :
  fPowNoRetargeting params = false ->
  LwmaCalculateNextWorkRequired pindexLast params = Some r \/
  Part000.LwmaCalculateNextWorkRequired pindexLast params = Some r ->
  exists x, r = GetCompact x /\
            0 <= x <= UintToArith256 (BCDBeginPowLimit params).
Proof.
  intros Hre.
  pose proof (u256_range (BCDBeginPowLimit params)) as HL.
  fold (UintToArith256 (BCDBeginPowLimit params)) in HL.
  rewrite Lwma_via_window, Part000_via_window. cbv zeta. rewrite Hre.
  destruct (_ <? _).
  - intros [Hr | Hr]; apply Some_inj in Hr; subst r;
      (eexists; split; [reflexivity | lia]).
  - intros [Hr | Hr];
      (destruct (lwma_window pindexLast params _) as [v |]; [| discriminate]);
      cbn [bind] in Hr; apply Some_inj in Hr; subst r;
      (eexists; split; [reflexivity |]).
    + pose proof (clamp_le_limit
                    (mul_u32 (avgTarget v) (sumWeightedSolvetimes v))
                    (UintToArith256 (BCDBeginPowLimit params))
                    (proj1 (u256_range _)) HL). lia.
    + pose proof (clamp_le_limit
                    (mul (of_uint64 (sumWeightedSolvetimes v)) (avgTarget v))
                    (UintToArith256 (BCDBeginPowLimit params))
                    (proj1 (u256_range _)) HL). lia.
Qed.

(** X14. When [BCDBeginPowLimit] does not exceed [powLimit], a target
    computed by the LWMA retarget, in either revision, is never turned down
    by [CheckProofOfWork] for its range: a hash passes exactly when the
    decoded target is not zero and the hash does not exceed it. *)
Theorem Lwma_result_admissible pindexLast params r hash :
  fPowNoRetargeting params = false ->
  UintToArith256 (BCDBeginPowLimit params) <= UintToArith256 (powLimit params) ->
  LwmaCalculateNextWorkRequired pindexLast params = Some r \/
  Part000.LwmaCalculateNextWorkRequired pindexLast params = Some r ->
  (CheckProofOfWork hash r params = true <->
   SetCompact r <> 0 /\ UintToArith256 hash <= SetCompact r).
Proof.
  intros Hre Hlim Hr.
  destruct (Lwma_result_encoded pindexLast params r Hre Hr) as (x & -> & Hx).
  pose proof (u256_range (BCDBeginPowLimit params)) as HL.
  fold (UintToArith256 (BCDBeginPowLimit params)) in HL.
  rewrite (CheckProofOfWork_encoded x hash params) by lia.
  pose proof (GetCompact_decode_le x ltac:(lia)).
  intuition lia.
Qed.

Lemma Lwma_result_admissible_witness :
  CheckProofOfWork 5 469827582 single_limit_params = true <->
  SetCompact 469827582 <> 0 /\ UintToArith256 5 <= SetCompact 469827582.
Proof.
  apply (Lwma_result_admissible steady_chain single_limit_params 469827582 5).
  - reflexivity.
  - vm_compute. congruence.
  - left. reflexivity.
Defined.

(** ** The LWMA result as a function of the last block's time *)

Lemma lwma_loop_snoc pindexLast T kN n :
  forall i v,
  lwma_loop pindexLast T kN (S n) i v
  = (v' <- lwma_loop pindexLast T kN n i v ;;
     lwma_body pindexLast T kN (i + Z.of_nat n) v').
Proof.
  assert (Hstep : forall m i v,
    lwma_loop pindexLast T kN (S m) i v
    = (v1 <- lwma_body pindexLast T kN i v ;;
       lwma_loop pindexLast T kN m (i + 1) v1)) by reflexivity.
  induction n as [| n IH]; intros i v.
  - cbn [lwma_loop bind]. rewrite Z.add_0_r.
    destruct (lwma_body pindexLast T kN i v); reflexivity.
  - rewrite (Hstep (S n)). rewrite (Hstep n).
    destruct (lwma_body pindexLast T kN i v) as [v1 |]; [| reflexivity].
    cbn [bind]. rewrite IH.
    replace (i + 1 + Z.of_nat n) with (i + Z.of_nat (S n)) by lia.
    reflexivity.
Qed.

Lemma lwma_loop_weight pindexLast T N kN :
  0 < T -> 0 <= N -> 6 * T * tri N < 2 ^ 31 ->
  (forall b, In b (chain_blocks pindexLast) -> 0 <= nTime b < 2 ^ 32) ->
  forall n i v v',
  lwma_loop pindexLast T kN n i v = Some v' ->
  0 <= weight v -> weight v + Z.of_nat n <= N -> bounded_vars T v ->
  weight v' = weight v + Z.of_nat n.
Proof.
  intros HT HN Hfit Htimes.
  induction n as [| n IH]; intros i v v' Hl Hw Hn Hb; cbn [lwma_loop] in Hl.
  - apply Some_inj in Hl. subst. lia.
  - destruct (lwma_body pindexLast T kN i v) as [v2 |] eqn:Hbody; [| discriminate].
    cbn [bind] in Hl.
    destruct (lwma_body_bounded pindexLast T N kN HT HN Hfit Htimes i v v2
                Hbody ltac:(lia) Hb) as [Hw2 Hb2].
    rewrite (IH (i + 1) v2 v' Hl ltac:(lia) ltac:(lia) Hb2). lia.
Qed.

Lemma GetAncestor_below h t t' c prev j :
  j < h ->
  GetAncestor (BlockIndex h t c prev) j = GetAncestor (BlockIndex h t' c prev) j.
Proof.
  intros Hj. unfold GetAncestor. cbn [nHeight].
  destruct (_ || _); [reflexivity |].
  destruct (Z.to_nat (h - j)) as [| n] eqn:Hn; [lia |].
  reflexivity.
Qed.

Lemma same_block_data_refl a : same_block_data a a.
Proof. destruct a; cbn; auto. Qed.

(** The last pass of the loop, on a block whose time is [t]. *)
Lemma lwma_body_exact pindexLast T N kN i v v' b :
  0 < T -> 0 <= N -> 6 * T * tri N < 2 ^ 31 ->
  GetAncestor pindexLast i = Some b -> 0 <= nTime b < 2 ^ 32 ->
  0 <= weight v < N -> bounded_vars T v ->
  lwma_body pindexLast T kN i v = Some v' ->
  sumWeightedSolvetimes v'
  = sumWeightedSolvetimes v
    + Z.min (6 * T) (Z.max (nTime b) (previousTimestamp v + 1)
                     - previousTimestamp v) * (weight v + 1) /\
  exists q, div (SetCompact (nBits b)) (of_uint64 kN) = Some q /\
            avgTarget v' = add (avgTarget v) q.
Proof.
  intros HT HN Hfit Hb Ht Hw [Hsum Hprev]. unfold lwma_body. rewrite Hb.
  cbn [bind].
  destruct (div _ _) as [q |]; [| discriminate]. cbn [bind].
  intros H. apply Some_inj in H. subst v'.
  cbn [sumWeightedSolvetimes avgTarget]. split; [| exists q; auto].
  pose proof (window_small T N HT HN Hfit) as HN31.
  unfold GetBlockTime.
  set (w := weight v) in *. set (prev := previousTimestamp v) in *.
  set (sum := sumWeightedSolvetimes v) in *.
  rewrite (int32_small (w + 1)) by in_range.
  rewrite (int64_small (prev + 1)) by in_range.
  assert (Hthis : (if nTime b >? prev then nTime b else prev + 1)
                  = Z.max (nTime b) (prev + 1)).
  { pose proof (Zgt_cases (nTime b) prev) as C.
    destruct (nTime b >? prev); lia. }
  rewrite Hthis.
  pose proof (tri_mono 1 N ltac:(lia)) as Hone. change (tri 1) with 1 in Hone.
  assert (H6T : 6 * T <= 6 * T * tri N) by nia.
  rewrite (int64_small (6 * T)) by in_range.
  rewrite (int64_small (Z.max _ _ - prev)) by in_range.
  set (solvetime := Z.min (6 * T) (Z.max (nTime b) (prev + 1) - prev)).
  assert (Hsolve : 0 <= solvetime <= 6 * T) by (unfold solvetime; lia).
  pose proof (tri_mono (w + 1) N ltac:(lia)) as Hmono.
  pose proof (tri_succ w) as Hsucc.
  assert (Hterm : 0 <= solvetime * (w + 1) <= 6 * T * (w + 1)) by nia.
  assert (Hnew : 0 <= sum + solvetime * (w + 1) <= 6 * T * tri (w + 1)) by nia.
  assert (Hcap : 6 * T * tri (w + 1) <= 6 * T * tri N) by nia.
  rewrite (int64_small (solvetime * (w + 1))) by in_range.
  rewrite (int64_small (sum + solvetime * (w + 1))) by in_range.
  rewrite (int32_small (sum + solvetime * (w + 1))) by in_range.
  reflexivity.
Qed.

Lemma lwma_window_last_time h t t' c prev params v v' :
  let T := nPowTargetSpacing params in
  let N := nZawyLwmaAveragingWindow params in
  0 < T -> 1 <= N <= h -> h < INT_MAX ->
  6 * T * tri N < 2 ^ 31 ->
  (forall b, In b (chain_blocks (BlockIndex h t' c prev)) -> 0 <= nTime b < 2 ^ 32) ->
  0 <= t <= t' ->
  lwma_window (BlockIndex h t c prev) params (T * tri N) = Some v ->
  lwma_window (BlockIndex h t' c prev) params (T * tri N) = Some v' ->
  avgTarget v = avgTarget v' /\
  sumWeightedSolvetimes v <= sumWeightedSolvetimes v'.
Proof.
  intros T N HT HN Hh Hfit Htimes Ht. unfold INT_MAX in Hh.
  pose proof (tri_double N) as Hd.
  assert (HN31 : N < 2 ^ 31) by (apply (window_small T N HT ltac:(lia) Hfit)).
  assert (Htimes0 : forall b, In b (chain_blocks (BlockIndex h t c prev)) ->
                              0 <= nTime b < 2 ^ 32).
  { intros b Hin.
    destruct prev as [p |]; cbn in Hin.
    - destruct Hin as [<- | Hin]; [cbn; specialize (Htimes _ (chain_blocks_head
        (BlockIndex h t' c (Some p)))); cbn in Htimes; lia |].
      apply Htimes. cbn. auto.
    - destruct Hin as [<- | []]. cbn.
      specialize (Htimes _ (chain_blocks_head (BlockIndex h t' c None))).
      cbn in Htimes. lia. }
  unfold lwma_window. fold T N. cbn [nHeight].
  rewrite (int64_small (h - N)) by in_range.
  rewrite (int32_small (h - N)) by in_range.
  rewrite (int64_small (h - N + 1)) by in_range.
  rewrite (int32_small (h - N + 1)) by in_range.
  rewrite (GetAncestor_below h t t' c prev (h - N)) by lia.
  destruct (GetAncestor (BlockIndex h t' c prev) (h - N)) as [b0 |] eqn:Hb0;
    [| discriminate].
  cbn [bind]. unfold lwma_for.
  rewrite (proj2 (Z.eqb_neq h INT_MAX)) by (unfold INT_MAX; lia).
  rewrite andb_false_r.
  replace (h - (h - N + 1) + 1) with N by lia.
  replace (Z.to_nat N) with (S (Z.to_nat (N - 1))) by lia.
  rewrite !lwma_loop_snoc.
  rewrite Z2Nat.id by lia.
  replace (h - N + 1 + (N - 1)) with h by lia.
  set (kN := int64 (T * tri N * N)).
  set (v0 := mkVars (GetBlockTime b0) 0 0 0).
  rewrite (lwma_loop_same_data (BlockIndex h t c prev) (BlockIndex h t' c prev)
             T kN (Z.to_nat (N - 1)) (h - N + 1) v0).
  2:{ intros j Hj. rewrite (GetAncestor_below h t t' c prev j) by lia.
      apply same_block_data_refl. }
  destruct (lwma_loop (BlockIndex h t' c prev) T kN (Z.to_nat (N - 1))
              (h - N + 1) v0) as [v1 |] eqn:Hloop; [| discriminate].
  cbn [bind]. intros Hv Hv'.
  pose proof (Htimes b0 (GetAncestor_in_chain _ _ _ Hb0)) as Ht0.
  assert (Hinit : bounded_vars T v0).
  { unfold bounded_vars, v0. cbn. change (tri 0) with 0.
    fold (GetBlockTime b0) in Ht0. lia. }
  pose proof (lwma_loop_bounded (BlockIndex h t' c prev) T N kN HT ltac:(lia)
                Hfit Htimes (Z.to_nat (N - 1)) (h - N + 1) v0 v1 Hloop
                ltac:(cbn; lia) ltac:(cbn; lia) Hinit) as Hbv1.
  assert (Hw1 : weight v1 = N - 1).
  { rewrite (lwma_loop_weight (BlockIndex h t' c prev) T N kN HT ltac:(lia)
               Hfit Htimes _ _ _ _ Hloop ltac:(cbn; lia) ltac:(cbn; lia) Hinit).
    cbn. lia. }
  assert (Hself : forall x, GetAncestor (BlockIndex h x c prev) h
                            = Some (BlockIndex h x c prev)).
  { intros x. apply (GetAncestor_self (BlockIndex h x c prev)). cbn. lia. }
  destruct (lwma_body_exact (BlockIndex h t c prev) T N kN h v1 v
              (BlockIndex h t c prev) HT ltac:(lia) Hfit (Hself t)
              ltac:(cbn; specialize (Htimes _ (chain_blocks_head
                      (BlockIndex h t' c prev))); cbn in Htimes; lia)
              ltac:(lia) Hbv1 Hv) as (Hs & q & Hq & Ha).
  destruct (lwma_body_exact (BlockIndex h t' c prev) T N kN h v1 v'
              (BlockIndex h t' c prev) HT ltac:(lia) Hfit (Hself t')
              ltac:(apply Htimes, chain_blocks_head)
              ltac:(lia) Hbv1 Hv') as (Hs' & q' & Hq' & Ha').
  cbn [nBits] in Hq, Hq'. rewrite Hq in Hq'. apply Some_inj in Hq'. subst q'.
  split; [congruence |].
  rewrite Hs, Hs'. cbn [nTime].
  apply Z.add_le_mono_l. apply Z.mul_le_mono_nonneg_r; lia.
Qed.

(** X15. Moving the time of the last block later, everything else equal, never
    makes the next block harder: in both revisions the LWMA result for the
    later time decodes to a target at least as large.  Only the last pass of
    the loop sees the changed time, and there a later time gives a solve
    time at least as long, with the largest weight. *)
Theorem Lwma_later_last_time_not_harder h t t' c prev params M :
  let T := nPowTargetSpacing params in
  let N := nZawyLwmaAveragingWindow params in
  0 < T -> 1 <= N <= h -> h < INT_MAX ->
  3 * T * N * (N + 1) < 2 ^ 31 ->
  (forall b, In b (chain_blocks (BlockIndex h t' c prev)) ->
             0 <= nTime b < 2 ^ 32) ->
  0 <= t <= t' ->
  (forall i b, h - N < i <= h ->
               GetAncestor (BlockIndex h t' c prev) i = Some b ->
               SetCompact (nBits b) <= M) ->
  6 * M < 2 ^ 256 ->
  (forall r r',
     LwmaCalculateNextWorkRequired (BlockIndex h t c prev) params = Some r ->
     LwmaCalculateNextWorkRequired (BlockIndex h t' c prev) params = Some r' ->
     SetCompact r <= SetCompact r') /\
  (forall r r',
     Part000.LwmaCalculateNextWorkRequired (BlockIndex h t c prev) params = Some r ->
     Part000.LwmaCalculateNextWorkRequired (BlockIndex h t' c prev) params = Some r' ->
     SetCompact r <= SetCompact r').
Proof.
  intros T N HT HN Hh Hfit Htimes Ht HM H6M.
  pose proof (tri_double N) as Hd.
  assert (Hsum : 6 * T * tri N < 2 ^ 31) by nia.
  assert (Htri : 1 <= tri N) by nia.
  assert (Hprod : N * (N + 1) * T < 2 ^ 63) by nia.
  assert (Hk1 : lwma_k N T = T * tri N) by (apply lwma_k_exact; lia).
  assert (Hk2 : Part000.lwma_k N T = T * tri N).
  { rewrite <- Hk1. symmetry. apply lwma_k_agree.
    rewrite (int64_small (N + 1)) by (cbv [in_int64]; nia).
    rewrite (int64_small (N * (N + 1))) by (cbv [in_int64]; nia).
    cbv [in_int64]. nia. }
  assert (Hself : forall x, GetAncestor (BlockIndex h x c prev) h
                            = Some (BlockIndex h x c prev)).
  { intros x. apply (GetAncestor_self (BlockIndex h x c prev)). cbn. lia. }
  assert (Htimes0 : forall b, In b (chain_blocks (BlockIndex h t c prev)) ->
                              0 <= nTime b < 2 ^ 32).
  { pose proof (Htimes _ (chain_blocks_head (BlockIndex h t' c prev))) as Hh'.
    cbn in Hh'.
    intros b Hin. destruct prev as [p |]; cbn in Hin.
    - destruct Hin as [<- | Hin]; [cbn; lia |]. apply Htimes. cbn. auto.
    - destruct Hin as [<- | []]. cbn. lia. }
  assert (HM0 : forall i b, h - N < i <= h ->
                GetAncestor (BlockIndex h t c prev) i = Some b ->
                SetCompact (nBits b) <= M).
  { intros i b Hi Hb. destruct (Z.eq_dec i h) as [-> | Hne].
    - rewrite Hself in Hb. apply Some_inj in Hb. subst b. cbn [nBits].
      apply (HM h _ ltac:(lia) (Hself t')).
    - rewrite (GetAncestor_below h t t' c prev i) in Hb by lia.
      apply (HM i b Hi Hb). }
  pose proof (u256_range (BCDBeginPowLimit params)) as HL.
  fold (UintToArith256 (BCDBeginPowLimit params)) in HL.
  set (L := UintToArith256 (BCDBeginPowLimit params)) in *.
  assert (Hfinal : forall v v',
    lwma_window (BlockIndex h t c prev) params (T * tri N) = Some v ->
    lwma_window (BlockIndex h t' c prev) params (T * tri N) = Some v' ->
    0 <= sumWeightedSolvetimes v < 2 ^ 31 /\
    0 <= sumWeightedSolvetimes v' < 2 ^ 31 /\
    SetCompact (GetCompact
      (if u256 (avgTarget v * sumWeightedSolvetimes v) >? L then L
       else u256 (avgTarget v * sumWeightedSolvetimes v)))
    <= SetCompact (GetCompact
      (if u256 (avgTarget v' * sumWeightedSolvetimes v') >? L then L
       else u256 (avgTarget v' * sumWeightedSolvetimes v')))).
  { intros v v' Hv Hv'.
    destruct (lwma_window_last_time h t t' c prev params v v' HT HN Hh Hsum
                Htimes Ht Hv Hv') as [Ha Hs].
    destruct (lwma_window_bounds (BlockIndex h t c prev) params M v HT HN Hh
                Hsum Htimes0 HM0 Hv) as (Hw & [Hs0 _] & Ha0 & _).
    destruct (lwma_window_bounds (BlockIndex h t' c prev) params M v' HT HN Hh
                Hsum Htimes HM Hv') as (Hw' & [Hs1 _] & Ha1 & Hinv).
    rewrite Hw in Hs0. rewrite Hw' in Hs1. fold T N in Hs0, Hs1, Hinv.
    rewrite <- Ha in *.
    assert (Hak : avgTarget v * (T * tri N) <= M) by nia.
    assert (Hx' : avgTarget v * sumWeightedSolvetimes v' <= 6 * M).
    { apply Z.le_trans with (avgTarget v * (6 * (T * tri N))).
      - apply Z.mul_le_mono_nonneg_l; lia.
      - lia. }
    assert (Hxx : avgTarget v * sumWeightedSolvetimes v
                  <= avgTarget v * sumWeightedSolvetimes v')
      by (apply Z.mul_le_mono_nonneg_l; lia).
    assert (Hx0 : 0 <= avgTarget v * sumWeightedSolvetimes v)
      by (apply Z.mul_nonneg_nonneg; lia).
    split; [lia | split; [lia |]].
    rewrite !u256_small by lia.
    set (x := avgTarget v * sumWeightedSolvetimes v) in *.
    set (x' := avgTarget v * sumWeightedSolvetimes v') in *.
    pose proof (Zgt_cases x L) as C. pose proof (Zgt_cases x' L) as C'.
    apply decode_encode_mono; destruct (x >? L), (x' >? L); lia. }
  split; intros r r'.
  - rewrite !Lwma_via_window. cbv zeta. fold T N. cbn [nHeight nBits].
    rewrite Hk1.
    destruct (fPowNoRetargeting params).
    { intros Hr Hr'. apply Some_inj in Hr, Hr'. subst r r'. lia. }
    rewrite (proj2 (Z.ltb_ge h N)) by lia. fold L.
    destruct (lwma_window (BlockIndex h t c prev) params (T * tri N))
      as [v |] eqn:Hv; [| discriminate].
    destruct (lwma_window (BlockIndex h t' c prev) params (T * tri N))
      as [v' |] eqn:Hv'; [| discriminate].
    cbn [bind]. intros Hr Hr'. apply Some_inj in Hr, Hr'. subst r r'.
    destruct (Hfinal v v' eq_refl eq_refl) as (Hr0 & Hr1 & Hle).
    unfold mul_u32. rewrite !uint32_small by lia. exact Hle.
  - rewrite !Part000_via_window. cbv zeta. fold T N. cbn [nHeight nBits].
    rewrite Hk2.
    destruct (fPowNoRetargeting params).
    { intros Hr Hr'. apply Some_inj in Hr, Hr'. subst r r'. lia. }
    rewrite (proj2 (Z.ltb_ge h N)) by lia. fold L.
    destruct (lwma_window (BlockIndex h t c prev) params (T * tri N))
      as [v |] eqn:Hv; [| discriminate].
    destruct (lwma_window (BlockIndex h t' c prev) params (T * tri N))
      as [v' |] eqn:Hv'; [| discriminate].
    cbn [bind]. intros Hr Hr'. apply Some_inj in Hr, Hr'. subst r r'.
    destruct (Hfinal v v' eq_refl eq_refl) as (Hr0 & Hr1 & Hle).
    unfold mul, of_uint64. rewrite !uint64_small by lia.
    rewrite (Z.mul_comm (sumWeightedSolvetimes v)),
            (Z.mul_comm (sumWeightedSolvetimes v')).
    exact Hle.
Qed.

Lemma Lwma_later_last_time_not_harder_witness :
  SetCompact 469805737 <= SetCompact 469827582.
Proof.
  refine (proj1 (Lwma_later_last_time_not_harder 3 1500 1800 hex_1c00ffff
                   (pprev (four_block_chain 0 hex_1c00ffff)) scenario_params
                   (SetCompact hex_1c00ffff) _ _ _ _ _ _ _ _)
                469805737 469827582 _ _).
  - reflexivity.
  - vm_compute. split; congruence.
  - reflexivity.
  - reflexivity.
  - intros b [<- | [<- | [<- | [<- | []]]]]; vm_compute; split; congruence.
  - vm_compute. split; congruence.
  - intros i b Hi. cbn in Hi.
    assert (Hc : i = 2 \/ i = 3) by lia.
    destruct Hc as [-> | ->]; intros Hb; apply Some_inj in Hb; subst b;
      vm_compute; congruence.
  - reflexivity.
  - reflexivity.
  - reflexivity.
Defined.

